(** * O3METER: hue / ozone-scale conversion and pixel averaging

    A shallow embedding of [O3METER.py]: the [HueScale] conversion, the
    two averaging paths of [CalculationThread] ([computeAll] for the whole
    image, [computeRegion] for a rubber-band selection) and the log slot of
    [MainWindow]; then the slots that display a value, the gradient and
    pointer of [ScaleWidget], the loader [openf] picks, and sessions of
    file openings and selections.

    Integers are [Z] (Python's unbounded [int]); the image array is a list
    of rows of four-channel pixels; a computation that raises is [None]. *)

From Stdlib Require Import ZArith Bool Ascii String DecimalString List Lia.
From Stdlib Require Import QArith Permutation.
Import ListNotations.
Local Open Scope Z_scope.

(** ** class HueScale *)

Module HueScale.

(** [def hueToScale(hue)]: [abs(hue - 60)] up to 60, [abs(hue - 359) + 61]
    above. *)
Definition hueToScale (hue : Z) : Z :=
  if hue <=? 60 then Z.abs (hue - 60) else Z.abs (hue - 359) + 61.

(** [def scaleToHue(scale)]: "the inverse function is itself". *)
Definition scaleToHue (scale : Z) : Z := hueToScale scale.

(** The hue ranges the class comment maps onto the scale:
    [[60..0] & [359..240]]. *)
Definition scale_hue (hue : Z) : Prop :=
  0 <= hue <= 60 \/ 240 <= hue <= 359.

End HueScale.

Import HueScale.

(** ** Python and numpy primitives used by the program *)

(** A computation that raises is [None]. *)
Notation "x <- c ;; k" :=
  (match c with Some x => k | None => None end)
  (at level 61, c at next level, right associativity).
Notation "' p <- c ;; k" :=
  (match c with Some p => k | None => None end)
  (at level 61, p pattern, c at next level, right associativity).

(** [int(a / b)] on Python integers: true division, then truncation toward
    zero. Division by zero raises [ZeroDivisionError]. The quotient is taken
    exactly: the operands of this program (pixel coordinates times image
    sizes) are far below 2^53, where the float quotient truncates to the
    same integer. *)
Definition int_truediv (a b : Z) : option Z :=
  if b =? 0 then None else Some (Z.quot a b).

(** [str(value)] of a Python integer. *)
Definition str (value : Z) : string := NilZero.string_of_int (Z.to_int value).

(** The line terminator written as ["\n"] in the source. *)
Definition nl : string := String (ascii_of_nat 10) EmptyString.

(** Python slicing: how [l[lo:hi]] clips a bound against the length [n].
    A negative bound counts from the end. *)
Definition slice_bound (n i : Z) : Z :=
  if i <? 0 then Z.max 0 (i + n) else Z.min i n.

(** [l[lo:hi]] *)
Definition slice {A : Type} (lo hi : Z) (l : list A) : list A :=
  let n := Z.of_nat (length l) in
  let a := slice_bound n lo in
  let b := slice_bound n hi in
  firstn (Z.to_nat (b - a)) (skipn (Z.to_nat a) l).

Module numpy.

(** One pixel of the array built by [setImage]: [reshape(height, width, 4)]
    over the bits of a [QImage] in format 4 (RGB32), so the last axis holds
    blue, green, red and the unused fourth byte, each a [uint8]. *)
Record pixel : Type := mkPixel { ch0 : Z; ch1 : Z; ch2 : Z; ch3 : Z }.

(** The image array: [height] rows of [width] pixels. *)
Definition ndarray : Type := list (list pixel).

Definition uint8 (v : Z) : Prop := 0 <= v <= 255.

Definition pixel_ok (p : pixel) : Prop :=
  uint8 (ch0 p) /\ uint8 (ch1 p) /\ uint8 (ch2 p) /\ uint8 (ch3 p).

(** [arr.shape == (h, w, 4)] *)
Definition shape (h w : Z) (arr : ndarray) : Prop :=
  Z.of_nat (length arr) = h /\
  Forall (fun row => Z.of_nat (length row) = w) arr.

(** [arr[:, :, k]] *)
Definition channel (k : pixel -> Z) (arr : ndarray) : list (list Z) :=
  map (map k) arr.

(** [arr[y0:y1, x0:x1, k]]: each axis is sliced as a Python sequence; a row
    is clipped against its own length, the array's width. *)
Definition subchannel (y0 y1 x0 x1 : Z) (k : pixel -> Z) (arr : ndarray)
  : list (list Z) :=
  map (fun row => map k (slice x0 x1 row)) (slice y0 y1 arr).

(** [m.reshape(-1)] *)
Definition reshape (m : list (list Z)) : list Z := concat m.

(** [v.size] *)
Definition size (v : list Z) : Z := Z.of_nat (length v).

(** [numpy.fmax(a, b)] *)
Fixpoint fmax (a b : list Z) : list Z :=
  match a, b with
  | x :: a', y :: b' => Z.max x y :: fmax a' b'
  | _, _ => []
  end.

(** [v < t] *)
Definition less (v : list Z) (t : Z) : list bool := map (fun x => x <? t) v.

(** [numpy.zeros(n)] *)
Definition zeros (n : Z) : list Z := repeat 0 (Z.to_nat n).

(** [numpy.where(c, a, b)] *)
Fixpoint where_ (c : list bool) (a b : list Z) : list Z :=
  match c, a, b with
  | t :: c', x :: a', y :: b' => (if t then x else y) :: where_ c' a' b'
  | _, _, _ => []
  end.

(** [numpy.count_nonzero(v)] *)
Definition count_nonzero (v : list Z) : Z :=
  Z.of_nat (length (filter (fun x => negb (x =? 0)) v)).

(** [numpy.sum(v)] *)
Definition sum (v : list Z) : Z := fold_right Z.add 0 v.

(** [int(numpy.asscalar(s / n))]: the quotient of a numpy float by a Python
    integer, truncated toward zero. With [n = 0] numpy yields nan or inf and
    [int] raises. Sums of [uint8] values are exact in a float64. *)
Definition int_quot (s n : Z) : option Z :=
  if n =? 0 then None else Some (Z.quot s n).

(** [int(numpy.asscalar(m.mean()))]: the mean of an empty array is nan, on
    which [int] raises. *)
Definition int_mean (m : list (list Z)) : option Z :=
  int_quot (sum (reshape m)) (size (reshape m)).

End numpy.

Import numpy.

(** ** Qt value types *)

Module QSize.
Record t : Type := mk { width : Z; height : Z }.
End QSize.

Module QPoint.
Record t : Type := mk { x : Z; y : Z }.
End QPoint.

(** [QColor(r, g, b).hue()] belongs to Qt, not to the repository. It is
    written here after Qt 5's [QColor::QColor(int,int,int)], [QColor::toHsv]
    and [QColor::hsvHue]: channels outside 0..255 give an invalid colour,
    whose hue field reads 0; an achromatic colour (max = min) has hue -1;
    otherwise the hue is [60 * (sector + difference / delta)] degrees,
    brought into [0, 360), stored as hundredths (rounded) and returned
    divided by 100. Qt computes the ratio in floating point; it is exact
    here. PyQt5 hands the three channels over as C [int]s and raises
    [OverflowError] on a value outside [-2^31, 2^31): that raise is not
    part of this definition, which stands for the call on channels within
    that range ([c_int] below). *)
Module QColor.

Definition in_range (c : Z) : bool := (0 <=? c) && (c <=? 255).

Definition hue (r g b : Z) : Z :=
  if negb (in_range r && in_range g && in_range b) then 0
  else
    let mx := Z.max (Z.max r g) b in
    let mn := Z.min (Z.min r g) b in
    let delta := mx - mn in
    if delta =? 0 then -1
    else
      let num :=
        if r =? mx then g - b
        else if g =? mx then 2 * delta + (b - r)
        else 4 * delta + (r - g) in
      let n := if num <? 0 then 6000 * num + 36000 * delta
               else 6000 * num in
      ((2 * n + delta) / (2 * delta)) / 100.

End QColor.

(** ** class CalculationThread *)

Module CalculationThread.

(** The fields set by [__init__]. [imgSize] defaults to the integer 0, which
    [run] tests for: [None] stands for that default. *)
Record t : Type := mk {
  arr : ndarray;
  imgSize : option QSize.t;
  lsize : QSize.t;
  origin : QPoint.t;
  destination : QPoint.t
}.

(** The channel means of [computeAll] (source lines 122-148). *)
Definition computeAll_means (self : t) : option (Z * Z * Z) :=
  let redPixels := reshape (channel ch2 (arr self)) in
  let greenPixels := reshape (channel ch1 (arr self)) in
  let bluePixels := reshape (channel ch0 (arr self)) in
  let nps := size redPixels in
  let values_t := fmax redPixels greenPixels in
  let values := fmax values_t bluePixels in
  let rvals := where_ (less values 150) redPixels (zeros nps) in
  let gvals := where_ (less values 150) greenPixels (zeros nps) in
  let bvals := where_ (less values 150) bluePixels (zeros nps) in
  let nvals := count_nonzero rvals in
  let '(rvals, gvals, bvals, nvals) :=
    if nvals <? 100 then
      let rvals := where_ (less values 250) redPixels (zeros nps) in
      let gvals := where_ (less values 250) greenPixels (zeros nps) in
      let bvals := where_ (less values 250) bluePixels (zeros nps) in
      (rvals, gvals, bvals, count_nonzero rvals)
    else (rvals, gvals, bvals, nvals) in
  rMean <- int_quot (sum rvals) nvals ;;
  gMean <- int_quot (sum gvals) nvals ;;
  bMean <- int_quot (sum bvals) nvals ;;
  Some (rMean, gMean, bMean).

(** [computeAll]: the value handed to [calculationFinished.emit], or [None]
    when the method raises before emitting. *)
Definition computeAll (self : t) : option Z :=
  '(rMean, gMean, bMean) <- computeAll_means self ;;
  Some (hueToScale (QColor.hue rMean gMean bMean)).

(** The selection in array coordinates, [(xo, xd, yo, yd)] (source lines
    158-161). *)
Definition regionRect (self : t) (isz : QSize.t) : option (Z * Z * Z * Z) :=
  let o := origin self in
  let d := destination self in
  let l := lsize self in
  xo <- int_truediv (Z.min (QPoint.x o) (QPoint.x d) * QSize.width isz)
                    (QSize.width l) ;;
  xd <- int_truediv (Z.max (QPoint.x o) (QPoint.x d) * QSize.width isz)
                    (QSize.width l) ;;
  yo <- int_truediv (Z.min (QPoint.y o) (QPoint.y d) * QSize.height isz)
                    (QSize.height l) ;;
  yd <- int_truediv (Z.max (QPoint.y o) (QPoint.y d) * QSize.height isz)
                    (QSize.height l) ;;
  Some (xo, xd + 1, yo, yd + 1).

(** The channel means of [computeRegion] (source lines 158-171). *)
Definition computeRegion_means (self : t) (isz : QSize.t)
  : option (Z * Z * Z) :=
  '(xo, xd, yo, yd) <- regionRect self isz ;;
  let redPixels := subchannel yo yd xo xd ch2 (arr self) in
  let greenPixels := subchannel yo yd xo xd ch1 (arr self) in
  let bluePixels := subchannel yo yd xo xd ch0 (arr self) in
  rMean <- int_mean redPixels ;;
  gMean <- int_mean greenPixels ;;
  bMean <- int_mean bluePixels ;;
  Some (rMean, gMean, bMean).

(** [computeRegion]: the emitted value, or [None] when the method raises. *)
Definition computeRegion (self : t) (isz : QSize.t) : option Z :=
  '(rMean, gMean, bMean) <- computeRegion_means self isz ;;
  Some (hueToScale (QColor.hue rMean gMean bMean)).

(** [run]: whole image when [imgSize] was left at its default. *)
Definition run (self : t) : option Z :=
  match imgSize self with
  | None => computeAll self
  | Some isz => computeRegion self isz
  end.

End CalculationThread.

(** [CalculationThread(arr)], as [setImage] builds it: the other arguments
    keep their defaults. *)
Definition whole (a : ndarray) : CalculationThread.t :=
  CalculationThread.mk a None (QSize.mk 0 0) (QPoint.mk 0 0) (QPoint.mk 0 0).

(** [CalculationThread(arr, imgSize, lsize, origin, destination)], as
    [mouseReleaseEvent] builds it. *)
Definition region (a : ndarray) (isz l : QSize.t) (o d : QPoint.t)
  : CalculationThread.t :=
  CalculationThread.mk a (Some isz) l o d.

(** ** class MainWindow: the slots connected to [hueCalculated] *)

Module MainWindow.

(** The part of the window the slots touch: the file being analysed, the
    LCD readout, the hue of the colour swatch, the pointer of the scale
    widget, and the content of [ozone.log]. *)
Record t : Type := mk {
  currentFile : string;
  lcd : Z;
  colorw : Z;
  pointer : Z;
  ozone_log : string
}.

(** [self.lcd.display(value)] *)
Definition display (value : Z) (self : t) : t :=
  mk (currentFile self) value (colorw self) (pointer self) (ozone_log self).

(** [updateColor(hue)]: the swatch takes the hue [scaleToHue(hue)]. *)
Definition updateColor (hue : Z) (self : t) : t :=
  mk (currentFile self) (lcd self) (scaleToHue hue) (pointer self)
     (ozone_log self).

(** [self.scale.updatePointer(color)] *)
Definition updatePointer (color : Z) (self : t) : t :=
  mk (currentFile self) (lcd self) (colorw self) color (ozone_log self).

(** The text [logValue] writes. *)
Definition logLine (file : string) (value : Z) : string :=
  (file ++ " " ++ str value ++ nl)%string.

(** [logValue(value)]: [open('ozone.log','a')], one [write], [close]. *)
Definition logValue (value : Z) (self : t) : t :=
  mk (currentFile self) (lcd self) (colorw self) (pointer self)
     (ozone_log self ++ logLine (currentFile self) value)%string.

(** The four slots [initUI] connects to [simage.hueCalculated], in
    connection order. *)
Definition hueCalculated (value : Z) (self : t) : t :=
  logValue value (updatePointer value (updateColor value (display value self))).

(** One analysis: a [CalculationThread] runs; its [calculationFinished]
    signal, emitted only at the end of a computation that did not raise,
    is forwarded to [hueCalculated]. *)
Definition analyse (th : CalculationThread.t) (self : t) : t :=
  match CalculationThread.run th with
  | Some value => hueCalculated value self
  | None => self
  end.

(** [SelectableImage.mouseReleaseEvent]: an analysis of the selection
    dragged from [origin] to the release position [pos], on the array [a] of
    an image of size [isz] shown at size [l]. *)
Definition mouseReleaseEvent (a : ndarray) (isz l : QSize.t)
    (origin pos : QPoint.t) (self : t) : t :=
  analyse (region a isz l origin pos) self.

(** [openf], once the dialog has returned [fileName]. [loaded] is [None]
    when [loadRaw] or [loadImage] returned [False] (no decoder, unreadable
    image), and otherwise the array [setImage] built and analysed. In the
    source the failure branches of both loaders call [self.statusBar()],
    which a [QLabel] does not have, so they raise before they return:
    [openf] stops at the same statement either way, and [None] gives the
    window as the statements before the load left it. *)
Definition openf (fileName : string) (loaded : option ndarray) (self : t)
  : t :=
  let self := mk fileName (lcd self) (colorw self) (pointer self)
                 (ozone_log self) in
  let self := updateColor 0 self in
  let self := display 0 self in
  match loaded with
  | None => self
  | Some a => updatePointer 0 (analyse (whole a) self)
  end.

End MainWindow.

(** ** Reference notions used to state the properties *)

(** The largest of the three colour channels of a pixel. *)
Definition maxc (p : pixel) : Z := Z.max (Z.max (ch2 p) (ch1 p)) (ch0 p).

(** The pixels of the whole image below a brightness threshold. *)
Definition candidates (thr : Z) (a : ndarray) : list pixel :=
  filter (fun p => maxc p <? thr) (concat a).

(** Truncated mean of one channel over a list of pixels; undefined on the
    empty list. *)
Definition channel_mean (k : pixel -> Z) (ps : list pixel) : option Z :=
  match ps with
  | [] => None
  | _ => Some (Z.quot (sum (map k ps)) (Z.of_nat (length ps)))
  end.

(** Truncated red, green and blue means over a list of pixels. *)
Definition rgb_mean (ps : list pixel) : option (Z * Z * Z) :=
  r <- channel_mean ch2 ps ;;
  g <- channel_mean ch1 ps ;;
  b <- channel_mean ch0 ps ;;
  Some (r, g, b).

(** [computeAll]'s divisor [nvals] when the mask is taken at threshold
    [thr] (source lines 122-135 with 150 replaced by [thr]). *)
Definition nvals_at (thr : Z) (self : CalculationThread.t) : Z :=
  let redPixels := reshape (channel ch2 (CalculationThread.arr self)) in
  let greenPixels := reshape (channel ch1 (CalculationThread.arr self)) in
  let bluePixels := reshape (channel ch0 (CalculationThread.arr self)) in
  let values := fmax (fmax redPixels greenPixels) bluePixels in
  count_nonzero (where_ (less values thr) redPixels (zeros (size redPixels))).

(** The threshold in force after the "too bright pictures" workaround. *)
Definition active_threshold (self : CalculationThread.t) : Z :=
  if nvals_at 150 self <? 100 then 250 else 150.

(** The elements of a list whose index, counted from [i], lies in
    [[lo, hi)]. *)
Fixpoint between {A : Type} (lo hi i : Z) (l : list A) : list A :=
  match l with
  | [] => []
  | v :: l' =>
      if (lo <=? i) && (i <? hi) then v :: between lo hi (i + 1) l'
      else between lo hi (i + 1) l'
  end.

(** The pixels of the array at the positions [(x, y)] with [x0 <= x < x1]
    and [y0 <= y < y1], row by row. *)
Definition in_rect (x0 x1 y0 y1 : Z) (a : ndarray) : list pixel :=
  concat (map (between x0 x1 0) (between y0 y1 0 a)).

(** Number of line terminators in a string. *)
Fixpoint newlines (s : string) : nat :=
  match s with
  | EmptyString => 0%nat
  | String c s' =>
      ((if Ascii.eqb c (ascii_of_nat 10) then 1 else 0) + newlines s')%nat
  end.

(** The corners of the selection in display coordinates. *)
Definition xmin (self : CalculationThread.t) : Z :=
  Z.min (QPoint.x (CalculationThread.origin self))
        (QPoint.x (CalculationThread.destination self)).
Definition xmax (self : CalculationThread.t) : Z :=
  Z.max (QPoint.x (CalculationThread.origin self))
        (QPoint.x (CalculationThread.destination self)).
Definition ymin (self : CalculationThread.t) : Z :=
  Z.min (QPoint.y (CalculationThread.origin self))
        (QPoint.y (CalculationThread.destination self)).
Definition ymax (self : CalculationThread.t) : Z :=
  Z.max (QPoint.y (CalculationThread.origin self))
        (QPoint.y (CalculationThread.destination self)).

(** A point lies on a displayed image of size [l]. *)
Definition on_display (l : QSize.t) (p : QPoint.t) : Prop :=
  0 <= QPoint.x p < QSize.width l /\ 0 <= QPoint.y p < QSize.height l.

(** ** Example inputs *)

(** A pixel given by its red, green and blue values (opaque alpha). *)
Definition rgb (r g b : Z) : pixel := mkPixel b g r 255.

(** A 1 x 2 image: two dark pixels, one of them without red. *)
Definition img_zero_red : ndarray := [[rgb 10 20 30; rgb 0 20 30]].

(** A 1 x 101 image: a hundred dark pixels, half of them without red, and
    one bright gray pixel. *)
Definition img_half_red : ndarray :=
  [repeat (rgb 10 10 10) 50 ++ repeat (rgb 0 10 10) 50 ++ [rgb 200 200 200]].

(** A 1 x 1 image of dark blue. *)
Definition img_blue : ndarray := [[rgb 0 0 140]].

(** A 2 x 2 image of one gray. *)
Definition img_gray : ndarray :=
  [[rgb 100 100 100; rgb 100 100 100]; [rgb 100 100 100; rgb 100 100 100]].

(** A 4 x 4 image with a different colour in every row and a different
    red value in every column. *)
Definition img_grid : ndarray :=
  [[rgb 10 0 0; rgb 20 0 0; rgb 30 0 0; rgb 40 0 0];
   [rgb 10 50 0; rgb 20 50 0; rgb 30 50 0; rgb 40 50 0];
   [rgb 10 0 90; rgb 20 0 90; rgb 30 0 90; rgb 40 0 90];
   [rgb 10 70 70; rgb 20 70 70; rgb 30 70 70; rgb 40 70 70]].

(** The image [img_grid] shown at 8 x 8, with a selection dragged from
    (5, 6) back to (2, 3). *)
Definition sel_grid : CalculationThread.t :=
  region img_grid (QSize.mk 4 4) (QSize.mk 8 8) (QPoint.mk 5 6) (QPoint.mk 2 3).

(** The same display, with a click at (7, 7) and no drag. *)
Definition click_grid : CalculationThread.t :=
  region img_grid (QSize.mk 4 4) (QSize.mk 8 8) (QPoint.mk 7 7) (QPoint.mk 7 7).

(** The same display, with a selection dragged from (3, 3) to the left of
    the image, released at (-4, 2). *)
Definition sel_outside : CalculationThread.t :=
  region img_grid (QSize.mk 4 4) (QSize.mk 8 8) (QPoint.mk 3 3)
         (QPoint.mk (-4) 2).

(** A 1 x 1 image of saturated yellow. *)
Definition img_yellow : ndarray := [[rgb 255 255 0]].

(** ** class ScaleWidget: what [paintEvent] draws *)

Module ScaleWidget.

(** The colour stops of the gradient (source lines 79-82): the position
    along the widget, 0 at its left edge and 1 at its right edge, and the
    hue handed to [QColor.fromHsv]. The positions [1/3] and [2/3.] are
    taken as exact fractions. *)
Definition gradient : list (Q * Z) :=
  [(0%Q, 60); ((1 # 3)%Q, 0); ((2 # 3)%Q, 300); (1%Q, 240)].

(** [colordisp = (self.width() * self.color) / 180], the abscissa of the
    pointer's tip (source lines 86-89), as an exact quotient. *)
Definition colordisp (width color : Z) : Q :=
  (inject_Z (width * color) / inject_Z 180)%Q.

End ScaleWidget.

(** ** The loader [openf] picks *)

(** [c.lower()] for a one-byte character: the letters A to Z move to a to
    z. (The characters 128..255, read as Latin-1, have a lowercase form
    outside the ASCII range too, so they never meet the test below.) *)
Definition lower_char (c : ascii) : ascii :=
  let n := nat_of_ascii c in
  if ((65 <=? n) && (n <=? 90))%nat then ascii_of_nat (n + 32) else c.

(** [s.lower()] *)
Fixpoint lower (s : string) : string :=
  match s with
  | EmptyString => EmptyString
  | String c s' => String (lower_char c) (lower s')
  end.

(** [s.endswith(suffix)] *)
Definition endswith (s suffix : string) : bool :=
  let n := String.length s in
  let m := String.length suffix in
  ((m <=? n)%nat && String.eqb (substring (n - m) m s) suffix)%bool.

(** The two loaders of [SelectableImage]. *)
Inductive loader : Type := loadRaw | loadImage.

(** The test of [openf] (source lines 329-334):
    [fileName.lower().endswith('.cr2')] sends the file to [loadRaw], any
    other name to [loadImage]. *)
Definition openf_loader (fileName : string) : loader :=
  if endswith (lower fileName) ".cr2" then loadRaw else loadImage.

(** ** A session: the window together with the image on display *)

Module Session.

(** The window and [simage.arr], the array of the last image [setImage]
    received ([None] before the first one). *)
Record t : Type := mk {
  window : MainWindow.t;
  image : option ndarray
}.

(** [self.pixmap().size()]: the size of the image the array was built
    from. *)
Definition pixmap_size (a : ndarray) : QSize.t :=
  QSize.mk (match a with [] => 0 | row :: _ => Z.of_nat (length row) end)
           (Z.of_nat (length a)).

(** What the user does: open a file, whose loading yields an array or
    fails; or release the mouse at [pos] after pressing it at [origin],
    while the label has size [lsize]. *)
Inductive event : Type :=
| Open (fileName : string) (loaded : option ndarray)
| Release (lsize : QSize.t) (origin pos : QPoint.t).

(** One event. [openf] keeps the array on display when loading fails;
    [mouseReleaseEvent] analyses the array on display. The image label is
    hidden until a first image is loaded, so it receives no mouse event
    before. A load that fails and a computation that raises end the real
    program (an exception PyQt5 does not survive): the sessions of the
    program are those of this model up to the first such event. *)
Definition step (e : event) (s : t) : t :=
  match e with
  | Open fileName loaded =>
      mk (MainWindow.openf fileName loaded (window s))
         (match loaded with Some a => Some a | None => image s end)
  | Release lsize origin pos =>
      match image s with
      | Some a =>
          mk (MainWindow.mouseReleaseEvent a (pixmap_size a) lsize origin pos
                (window s))
             (image s)
      | None => s
      end
  end.

(** A sequence of events, in order. *)
Definition run (es : list event) (s : t) : t :=
  fold_left (fun s e => step e s) es s.

(** Whether an event emits a value in a state. *)
Definition emits (e : event) (s : t) : bool :=
  match e with
  | Open _ (Some a) =>
      match CalculationThread.run (whole a) with Some _ => true | None => false end
  | Open _ None => false
  | Release lsize origin pos =>
      match image s with
      | Some a =>
          match CalculationThread.run (region a (pixmap_size a) lsize origin pos)
          with Some _ => true | None => false end
      | None => false
      end
  end.

(** The number of events of a sequence that emit a value. *)
Fixpoint emitted (es : list event) (s : t) : nat :=
  match es with
  | [] => 0%nat
  | e :: es' => ((if emits e s then 1 else 0) + emitted es' (step e s))%nat
  end.

(** The file names a sequence of events opens are free of line
    terminators. *)
Fixpoint plain_names (es : list event) : Prop :=
  match es with
  | [] => True
  | Open fileName _ :: es' => newlines fileName = 0%nat /\ plain_names es'
  | Release _ _ _ :: es' => plain_names es'
  end.

End Session.

(** ** Further reference notions *)

(** The candidates with a red value that is not zero: the pixels [nvals]
    counts. *)
Definition red_candidates (thr : Z) (a : ndarray) : list pixel :=
  filter (fun p => negb (ch2 p =? 0)) (candidates thr a).

(** The threshold in force, told from the pixels. *)
Definition threshold_of (a : ndarray) : Z :=
  if Z.of_nat (length (red_candidates 150 a)) <? 100 then 250 else 150.

(** The threshold the relaxation rule would give if it counted every
    candidate. *)
Definition threshold_by_candidates (a : ndarray) : Z :=
  if Z.of_nat (length (candidates 150 a)) <? 100 then 250 else 150.

(** The pixel of column [x] in row [y]. *)
Definition pixel_at (a : ndarray) (x y : Z) : option pixel :=
  nth_error (nth (Z.to_nat y) a []) (Z.to_nat x).

(** The colour of a pixel as [(red, green, blue)]. *)
Definition colour (p : pixel) : Z * Z * Z := (ch2 p, ch1 p, ch0 p).

(** An image of a single colour. *)
Definition uniform (p : pixel) (a : ndarray) : Prop :=
  Forall (Forall (eq p)) a.

(** An array of well-formed pixels. *)
Definition array_ok (a : ndarray) : Prop := Forall (Forall pixel_ok) a.

(** The image [img_grid] with the pixels of every row in reverse order. *)
Definition img_grid_mirrored : ndarray := map (@rev pixel) img_grid.

(** A 2 x 3 image of one dark orange. *)
Definition img_orange : ndarray :=
  [[rgb 200 100 0; rgb 200 100 0; rgb 200 100 0];
   [rgb 200 100 0; rgb 200 100 0; rgb 200 100 0]].

(** A session showing [img_grid], opened as [grid.png]. *)
Definition session_grid : Session.t :=
  Session.mk (MainWindow.mk "grid.png" 0 60 0 "") (Some img_grid).

(** The range of a C [int], in which PyQt5 accepts the channels of
    [QColor(r, g, b)]. *)
Definition c_int (v : Z) : Prop := - 2 ^ 31 <= v < 2 ^ 31.

(** The image [img_grid] shown at 8 x 8, with a selection pressed at (7, 0)
    and released left of the label, at (-2, 0). *)
Definition sel_left : CalculationThread.t :=
  region img_grid (QSize.mk 4 4) (QSize.mk 8 8) (QPoint.mk 7 0)
         (QPoint.mk (-2) 0).

(** The same, released at (-1, 0). *)
Definition sel_left_half : CalculationThread.t :=
  region img_grid (QSize.mk 4 4) (QSize.mk 8 8) (QPoint.mk 7 0)
         (QPoint.mk (-1) 0).

(** ** Proof automation *)

(** Replaces the integer comparisons of the goal that linear arithmetic
    settles by their value. *)
Ltac settle_cmp :=
  repeat match goal with
  | |- context [?a <? ?b] =>
      first [ replace (a <? b) with true by (symmetry; apply Z.ltb_lt; lia)
            | replace (a <? b) with false by (symmetry; apply Z.ltb_ge; lia) ]
  | |- context [?a <=? ?b] =>
      first [ replace (a <=? b) with true by (symmetry; apply Z.leb_le; lia)
            | replace (a <=? b) with false by (symmetry; apply Z.leb_gt; lia) ]
  end.

(** ** Theorems about HueScale *)

Lemma hueToScale_low (hue : Z) : hue <= 60 -> hueToScale hue = 60 - hue.
Proof.
  intros H. unfold hueToScale.
  destruct (Z.leb_spec hue 60) as [_ | Hgt]; [ | lia ].
  rewrite Z.abs_neq; lia.
Qed.

Lemma hueToScale_high (hue : Z) :
  60 < hue <= 359 -> hueToScale hue = 420 - hue.
Proof.
  intros [Hlo Hhi]. unfold hueToScale.
  destruct (Z.leb_spec hue 60) as [Hle | _]; [ lia | ].
  rewrite Z.abs_neq; lia.
Qed.

(** C1: on [0,359] the conversion is [60 - hue] up to 60 and [420 - hue]
    above; the four boundary values are 60, 0, 180 and 61; and the function
    is strictly decreasing on [0,60]. *)
Theorem hueToScale_piecewise :
  (forall hue, 0 <= hue <= 359 ->
     hueToScale hue = if hue <=? 60 then 60 - hue else 420 - hue) /\
  (hueToScale 0 = 60 /\ hueToScale 60 = 0 /\
   hueToScale 240 = 180 /\ hueToScale 359 = 61) /\
  (forall h1 h2, 0 <= h1 -> h1 < h2 -> h2 <= 60 ->
     hueToScale h2 < hueToScale h1).
Proof.
  split; [ | split ].
  - intros hue [Hlo Hhi].
    destruct (Z.leb_spec hue 60) as [Hle | Hgt].
    + now apply hueToScale_low.
    + apply hueToScale_high; lia.
  - repeat split; reflexivity.
  - intros h1 h2 H0 Hlt H60.
    rewrite (hueToScale_low h1), (hueToScale_low h2); lia.
Qed.

Lemma hueToScale_piecewise_witness :
  hueToScale 45 = 15 /\ hueToScale 300 = 120 /\ hueToScale 50 < hueToScale 10.
Proof.
  destruct hueToScale_piecewise as [Hpw [_ Hdec]].
  split; [ | split ].
  - rewrite (Hpw 45); [ reflexivity | lia ].
  - rewrite (Hpw 300); [ reflexivity | lia ].
  - apply (Hdec 10 50); lia.
Defined.

(** Outside the two mapped hue ranges the same formula leaves the scale:
    a hue of the gap 61..239 is sent to 181..359. *)
Lemma hueToScale_gap (hue : Z) :
  61 <= hue <= 239 ->
  hueToScale hue = 420 - hue /\ 181 <= hueToScale hue <= 359.
Proof.
  intros H. rewrite hueToScale_high by lia. lia.
Qed.

(** C4, as stated, fails: some hue of [0,359] is mapped above 180. *)
Lemma hueToScale_range_counterexample :
  ~ (forall hue, 0 <= hue <= 359 -> 0 <= hueToScale hue <= 180).
Proof.
  intros H. specialize (H 61 ltac:(lia)).
  change (hueToScale 61) with 359 in H. lia.
Qed.

(** C4 (amended): the scale value lies in [0,180] for every hue of the two
    mapped ranges [0,60] and [240,359]; for a hue of the gap 61..239 the
    same piecewise formula applies and gives [420 - hue], which lies in
    [181,359]. *)
Theorem hueToScale_range (hue : Z) :
  0 <= hue <= 359 ->
  (scale_hue hue -> 0 <= hueToScale hue <= 180) /\
  (61 <= hue <= 239 ->
     hueToScale hue = 420 - hue /\ 181 <= hueToScale hue <= 359).
Proof.
  intros Hhue. split.
  - intros [Hlow | Hhigh].
    + rewrite hueToScale_low; lia.
    + rewrite hueToScale_high; lia.
  - apply hueToScale_gap.
Qed.

Lemma hueToScale_range_witness :
  0 <= hueToScale 300 <= 180 /\
  (hueToScale 100 = 420 - 100 /\ 181 <= hueToScale 100 <= 359).
Proof.
  split.
  - apply (hueToScale_range 300); [ lia | right; lia ].
  - apply (hueToScale_range 100); lia.
Defined.

(** C5: [scaleToHue] is [hueToScale]; it undoes [hueToScale] on the hue
    ranges [0,60] and [240,359]; and it sends every scale value of [0,180]
    to a hue of those ranges. *)
Theorem scaleToHue_inverse :
  (forall v, scaleToHue v = hueToScale v) /\
  (forall h, scale_hue h -> scaleToHue (hueToScale h) = h) /\
  (forall s, 0 <= s <= 180 -> scale_hue (scaleToHue s)).
Proof.
  split; [ reflexivity | split ].
  - intros h [Hlow | Hhigh]; unfold scaleToHue.
    + rewrite (hueToScale_low h) by lia. rewrite hueToScale_low; lia.
    + rewrite (hueToScale_high h) by lia. rewrite hueToScale_high; lia.
  - intros s Hs. unfold scaleToHue, scale_hue.
    destruct (Z_le_gt_dec s 60) as [Hle | Hgt].
    + left. rewrite hueToScale_low; lia.
    + right. rewrite hueToScale_high; lia.
Qed.

Lemma scaleToHue_inverse_witness :
  scaleToHue (hueToScale 250) = 250 /\ scale_hue (scaleToHue 100).
Proof.
  destruct scaleToHue_inverse as [_ [Hinv Hrange]].
  split.
  - apply (Hinv 250). right. lia.
  - apply (Hrange 100). lia.
Defined.

(** The round trip also holds inside the gap: [420 - hue] maps 61..359
    onto itself. *)
Lemma hueToScale_involutive (hue : Z) :
  0 <= hue <= 359 -> hueToScale (hueToScale hue) = hue.
Proof.
  intros Hhue. destruct (Z_le_gt_dec hue 60) as [Hle | Hgt].
  - rewrite (hueToScale_low hue) by lia. rewrite hueToScale_low; lia.
  - rewrite (hueToScale_high hue) by lia. rewrite hueToScale_high; lia.
Qed.

(** ** The whole-image path *)

Section Masks.

Variable ps : list pixel.

Lemma fmax_map (f g : pixel -> Z) :
  fmax (map f ps) (map g ps) = map (fun p => Z.max (f p) (g p)) ps.
Proof.
  induction ps as [ | p ps' IH ]; simpl; [ reflexivity | now rewrite IH ].
Qed.

Lemma where_less_zeros (c : pixel -> bool) (k : pixel -> Z) :
  where_ (map c ps) (map k ps) (repeat 0 (length ps)) =
  map (fun p => if c p then k p else 0) ps.
Proof.
  induction ps as [ | p ps' IH ]; simpl; [ reflexivity | now rewrite IH ].
Qed.

Lemma sum_masked (c : pixel -> bool) (k : pixel -> Z) :
  sum (map (fun p => if c p then k p else 0) ps) = sum (map k (filter c ps)).
Proof.
  induction ps as [ | p ps' IH ]; simpl; [ reflexivity | ].
  destruct (c p); simpl; rewrite IH; reflexivity.
Qed.

Lemma count_nonzero_masked (c : pixel -> bool) (k : pixel -> Z) :
  count_nonzero (map (fun p => if c p then k p else 0) ps) =
  Z.of_nat (length (filter (fun p => c p && negb (k p =? 0)) ps)).
Proof.
  unfold count_nonzero. f_equal.
  induction ps as [ | p ps' IH ]; simpl; [ reflexivity | ].
  destruct (c p); simpl.
  - destruct (k p =? 0); simpl; now rewrite IH.
  - exact IH.
Qed.

End Masks.

Lemma reshape_channel (k : pixel -> Z) (a : ndarray) :
  reshape (channel k a) = map k (concat a).
Proof.
  unfold reshape, channel. symmetry. apply concat_map.
Qed.

(** The masked channel [numpy.where(values < thr, kPixels, zeros)] of the
    source, pixel by pixel. *)
Lemma masked_channel (thr : Z) (k : pixel -> Z) (a : ndarray) :
  where_
    (less (fmax (fmax (reshape (channel ch2 a)) (reshape (channel ch1 a)))
                (reshape (channel ch0 a))) thr)
    (reshape (channel k a)) (zeros (size (reshape (channel ch2 a)))) =
  map (fun p => if maxc p <? thr then k p else 0) (concat a).
Proof.
  rewrite !reshape_channel.
  rewrite !fmax_map. unfold less, zeros, size.
  rewrite map_map, length_map, Nat2Z.id.
  apply (where_less_zeros (concat a) (fun p => maxc p <? thr) k).
Qed.

(** The sum of a masked channel is the sum over the candidates. *)
Lemma masked_sum (thr : Z) (k : pixel -> Z) (a : ndarray) :
  sum (map (fun p => if maxc p <? thr then k p else 0) (concat a)) =
  sum (map k (candidates thr a)).
Proof. apply sum_masked. Qed.

(** The divisor counts the candidates whose red value is not zero. *)
Lemma nvals_at_spec (thr : Z) (self : CalculationThread.t) :
  nvals_at thr self =
  Z.of_nat (length (filter (fun p => negb (ch2 p =? 0))
                           (candidates thr (CalculationThread.arr self)))).
Proof.
  unfold nvals_at. rewrite (masked_channel thr ch2).
  rewrite count_nonzero_masked. unfold candidates.
  f_equal. f_equal.
  induction (concat (CalculationThread.arr self)) as [ | p l IH ]; simpl;
    [ reflexivity | ].
  destruct (maxc p <? thr); simpl; [ | exact IH ].
  destruct (ch2 p =? 0); simpl; now rewrite IH.
Qed.

Lemma nvals_at_le_candidates (thr : Z) (self : CalculationThread.t) :
  0 <= nvals_at thr self <=
  Z.of_nat (length (candidates thr (CalculationThread.arr self))).
Proof.
  rewrite nvals_at_spec. split; [ lia | ].
  apply Nat2Z.inj_le, filter_length_le.
Qed.

(** What [computeAll] computes: the channel sums run over the candidates of
    the threshold in force, and all three are divided by [nvals], the number
    of candidates with a nonzero red value. *)
Theorem computeAll_means_eq (self : CalculationThread.t) :
  CalculationThread.computeAll_means self =
  let thr := active_threshold self in
  let cs := candidates thr (CalculationThread.arr self) in
  let n := nvals_at thr self in
  if n =? 0 then None
  else Some (Z.quot (sum (map ch2 cs)) n,
             Z.quot (sum (map ch1 cs)) n,
             Z.quot (sum (map ch0 cs)) n).
Proof.
  unfold CalculationThread.computeAll_means, active_threshold.
  cbv zeta. fold (nvals_at 150 self).
  destruct (nvals_at 150 self <? 100).
  - fold (nvals_at 250 self). rewrite !masked_channel, !masked_sum.
    unfold int_quot. destruct (nvals_at 250 self =? 0); reflexivity.
  - rewrite !masked_channel, !masked_sum.
    unfold int_quot. destruct (nvals_at 150 self =? 0); reflexivity.
Qed.

(** [computeAll] emits a value exactly when its final [nvals] is not zero. *)
Lemma computeAll_emits_iff (self : CalculationThread.t) :
  (exists value, CalculationThread.computeAll self = Some value) <->
  nvals_at (active_threshold self) self <> 0.
Proof.
  unfold CalculationThread.computeAll. rewrite computeAll_means_eq. cbv zeta.
  destruct (Z.eqb_spec (nvals_at (active_threshold self) self) 0) as [E | NE].
  - split; [ intros [v Hv]; discriminate | intros H; contradiction ].
  - split; [ intros _; exact NE | intros _; eexists; reflexivity ].
Qed.

(** Fewer than 100 strict candidates always trigger the relaxation. *)
Lemma relaxed_when_few_candidates (self : CalculationThread.t) :
  Z.of_nat (length (candidates 150 (CalculationThread.arr self))) < 100 ->
  active_threshold self = 250.
Proof.
  intros Hfew. unfold active_threshold.
  pose proof (nvals_at_le_candidates 150 self) as Hle.
  destruct (Z.ltb_spec (nvals_at 150 self) 100); [ reflexivity | lia ].
Qed.

(** Without candidates at the threshold in force nothing is emitted. *)
Lemma computeAll_no_candidates (self : CalculationThread.t) :
  candidates (active_threshold self) (CalculationThread.arr self) = [] ->
  CalculationThread.computeAll self = None.
Proof.
  intros Hnone.
  pose proof (nvals_at_le_candidates (active_threshold self) self) as Hle.
  rewrite Hnone in Hle. simpl in Hle.
  unfold CalculationThread.computeAll. rewrite computeAll_means_eq. cbv zeta.
  replace (nvals_at (active_threshold self) self) with 0 by lia.
  reflexivity.
Qed.

(** When no candidate has a zero red value, the divisor is the number of
    candidates and the result is their truncated mean. *)
Lemma computeAll_means_red_nonzero (self : CalculationThread.t) :
  let cs := candidates (active_threshold self) (CalculationThread.arr self) in
  Forall (fun p => ch2 p <> 0) cs ->
  CalculationThread.computeAll_means self = rgb_mean cs.
Proof.
  intros cs Hred. rewrite computeAll_means_eq. cbv zeta.
  rewrite nvals_at_spec. fold cs.
  assert (Hall : filter (fun p => negb (ch2 p =? 0)) cs = cs).
  { clear -Hred. induction Hred as [ | p l Hp _ IH ]; simpl; [ reflexivity | ].
    destruct (Z.eqb_spec (ch2 p) 0) as [E | _]; [ contradiction | ].
    simpl. now rewrite IH. }
  rewrite Hall. unfold rgb_mean, channel_mean.
  destruct cs as [ | p l ]; [ reflexivity | ].
  destruct (Z.eqb_spec (Z.of_nat (length (p :: l))) 0) as [E | _];
    [ simpl in E; lia | reflexivity ].
Qed.

(** C2: on the image [img_zero_red] both pixels are candidates and their
    truncated channel means are (5, 20, 30), but [computeAll] divides the
    channel sums by 1, the number of candidates with a nonzero red value,
    and obtains (10, 40, 60). *)
Theorem computeAll_means_zero_red :
  candidates (active_threshold (whole img_zero_red)) img_zero_red =
    [rgb 10 20 30; rgb 0 20 30] /\
  rgb_mean (candidates (active_threshold (whole img_zero_red)) img_zero_red) =
    Some (5, 20, 30) /\
  nvals_at (active_threshold (whole img_zero_red)) (whole img_zero_red) = 1 /\
  CalculationThread.computeAll_means (whole img_zero_red) = Some (10, 40, 60).
Proof.
  assert (Hthr : active_threshold (whole img_zero_red) = 250) by reflexivity.
  rewrite Hthr. repeat split; vm_compute; reflexivity.
Qed.

(** C3: on the image [img_half_red] a hundred pixels satisfy the strict
    threshold, yet only fifty of them have a nonzero red value, so
    [computeAll] relaxes the threshold to 250 and returns (13, 23, 23), not
    the mean (5, 10, 10) of the hundred strict candidates. *)
Theorem computeAll_relaxes_half_red :
  Z.of_nat (length (candidates 150 img_half_red)) = 100 /\
  nvals_at 150 (whole img_half_red) = 50 /\
  active_threshold (whole img_half_red) = 250 /\
  CalculationThread.computeAll_means (whole img_half_red) =
    Some (13, 23, 23) /\
  rgb_mean (candidates 150 img_half_red) = Some (5, 10, 10).
Proof.
  repeat split; vm_compute; reflexivity.
Qed.

(** C6: on the image [img_blue] the one pixel is a candidate under the
    threshold in force, so the final candidate count is 1, yet [computeAll]
    raises and emits nothing, its divisor being 0. *)
Theorem computeAll_blue_emits_nothing :
  candidates (active_threshold (whole img_blue)) img_blue = [rgb 0 0 140] /\
  nvals_at (active_threshold (whole img_blue)) (whole img_blue) = 0 /\
  CalculationThread.computeAll (whole img_blue) = None /\
  CalculationThread.run (whole img_blue) = None.
Proof.
  assert (Hthr : active_threshold (whole img_blue) = 250) by reflexivity.
  rewrite Hthr. repeat split; vm_compute; reflexivity.
Qed.

(** An image of saturated yellow has no candidate even under the relaxed
    threshold: nothing is emitted. *)
Lemma computeAll_yellow_image :
  candidates 250 img_yellow = [] /\
  CalculationThread.run (whole img_yellow) = None.
Proof. split; vm_compute; reflexivity. Qed.

(** ** Range of a true mean *)

Lemma sum_uint8 (k : pixel -> Z) (ps : list pixel) :
  Forall (fun p => uint8 (k p)) ps ->
  0 <= sum (map k ps) <= 255 * Z.of_nat (length ps).
Proof.
  induction 1 as [ | p ps' Hp _ IH ]; [ simpl; lia | ].
  unfold uint8 in Hp. cbn [map sum fold_right length].
  fold (sum (map k ps')). lia.
Qed.

(** The truncated mean of [uint8] values is a [uint8] value. *)
Lemma channel_mean_uint8 (k : pixel -> Z) (ps : list pixel) (m : Z) :
  Forall (fun p => uint8 (k p)) ps -> channel_mean k ps = Some m -> uint8 m.
Proof.
  intros Hps Hm. pose proof (sum_uint8 k ps Hps) as Hsum.
  destruct ps as [ | p ps' ]; [ discriminate | ].
  unfold channel_mean in Hm.
  set (n := Z.of_nat (length (p :: ps'))) in *.
  set (t := sum (map k (p :: ps'))) in *.
  assert (Hn : 0 < n) by (subst n; simpl; lia).
  injection Hm as <-.
  rewrite Z.quot_div_nonneg by lia. split.
  - apply Z.div_pos; lia.
  - apply Z.div_le_upper_bound; lia.
Qed.

(** The means of well-formed pixels make a valid colour. *)
Lemma rgb_mean_in_range (ps : list pixel) (r g b : Z) :
  Forall pixel_ok ps -> rgb_mean ps = Some (r, g, b) ->
  QColor.in_range r && QColor.in_range g && QColor.in_range b = true.
Proof.
  intros Hok Hmean. unfold rgb_mean in Hmean.
  destruct (channel_mean ch2 ps) as [ r' | ] eqn:Hr; [ | discriminate ].
  destruct (channel_mean ch1 ps) as [ g' | ] eqn:Hg; [ | discriminate ].
  destruct (channel_mean ch0 ps) as [ b' | ] eqn:Hb; [ | discriminate ].
  injection Hmean as -> -> ->.
  apply channel_mean_uint8 in Hr, Hg, Hb;
    try (eapply Forall_impl; [ | exact Hok ];
         intros p (H0 & H1 & H2 & H3); assumption).
  unfold uint8 in *. unfold QColor.in_range. settle_cmp. reflexivity.
Qed.

(** ** Hue of an achromatic mean *)

Lemma hue_gray (c : Z) : 0 <= c <= 255 -> QColor.hue c c c = -1.
Proof.
  intros Hc. unfold QColor.hue, QColor.in_range. settle_cmp.
  simpl. rewrite !Z.max_id, !Z.min_id, Z.sub_diag. reflexivity.
Qed.

(** C8, as stated, fails: a gray triple has neither hue 0 nor scale 60. *)
Lemma gray_scale_counterexample :
  ~ (forall c, 0 <= c <= 255 ->
       QColor.hue c c c = 0 /\ hueToScale (QColor.hue c c c) = 60).
Proof.
  intros H. destruct (H 100 ltac:(lia)) as [Hhue _].
  rewrite hue_gray in Hhue by lia. discriminate.
Qed.

(** C8 (amended): for a mean triple with three equal channels the hue
    extraction yields -1, Qt's value for an achromatic colour, and
    [hueToScale] therefore yields 61. *)
Theorem gray_scale (c : Z) :
  0 <= c <= 255 ->
  QColor.hue c c c = -1 /\ hueToScale (QColor.hue c c c) = 61.
Proof.
  intros Hc. rewrite hue_gray by exact Hc. split; reflexivity.
Qed.

Lemma gray_scale_witness :
  QColor.hue 100 100 100 = -1 /\ hueToScale (QColor.hue 100 100 100) = 61.
Proof.
  apply (gray_scale 100). lia.
Defined.

(** A uniformly gray image is reported as 61 by the whole-image path. *)
Lemma computeAll_gray_image :
  CalculationThread.computeAll_means (whole img_gray) = Some (100, 100, 100) /\
  CalculationThread.run (whole img_gray) = Some 61.
Proof.
  split; vm_compute; reflexivity.
Qed.

(** ** The region path *)

Section Between.

Context {A : Type}.
Implicit Types l : list A.

Lemma between_above lo hi i l : hi <= i -> between lo hi i l = [].
Proof.
  revert i. induction l as [ | v l' IH ]; intros i Hi; simpl;
    [ reflexivity | ].
  settle_cmp. rewrite andb_false_r. apply IH. lia.
Qed.

Lemma between_shift lo hi i l :
  between lo hi (i + 1) l = between (lo - 1) (hi - 1) i l.
Proof.
  revert i. induction l as [ | v l' IH ]; intros i; simpl; [ reflexivity | ].
  rewrite IH.
  replace (lo - 1 <=? i) with (lo <=? i + 1)
    by (destruct (Z.leb_spec lo (i + 1)), (Z.leb_spec (lo - 1) i);
        reflexivity || lia).
  replace (i <? hi - 1) with (i + 1 <? hi)
    by (destruct (Z.ltb_spec (i + 1) hi), (Z.ltb_spec i (hi - 1));
        reflexivity || lia).
  reflexivity.
Qed.

Lemma between_below lo lo' hi i l :
  lo <= i -> lo' <= i -> between lo hi i l = between lo' hi i l.
Proof.
  revert i. induction l as [ | v l' IH ]; intros i Hlo Hlo'; simpl;
    [ reflexivity | ].
  rewrite (IH (i + 1)) by lia. settle_cmp. reflexivity.
Qed.

Lemma between_In lo hi i l v : In v (between lo hi i l) -> In v l.
Proof.
  revert i. induction l as [ | u l' IH ]; intros i; simpl; [ tauto | ].
  destruct ((lo <=? i) && (i <? hi)); simpl; intros H.
  - destruct H as [H | H]; [ now left | right; eapply IH; eassumption ].
  - right. eapply IH; eassumption.
Qed.

Lemma between_clip lo hi i l :
  between lo hi i l =
  between (Z.min lo (i + Z.of_nat (length l)))
          (Z.min hi (i + Z.of_nat (length l))) i l.
Proof.
  revert i. induction l as [ | v l' IH ]; intros i; [ reflexivity | ].
  cbn [between length]. rewrite Nat2Z.inj_succ.
  rewrite (IH (i + 1)).
  replace (i + 1 + Z.of_nat (length l')) with (i + Z.succ (Z.of_nat (length l')))
    by lia.
  set (m := i + Z.succ (Z.of_nat (length l'))).
  assert (Hm : i < m) by (subst m; lia).
  replace (Z.min lo m <=? i) with (lo <=? i)
    by (destruct (Z.leb_spec lo i), (Z.leb_spec (Z.min lo m) i);
        reflexivity || lia).
  replace (i <? Z.min hi m) with (i <? hi)
    by (destruct (Z.ltb_spec i hi), (Z.ltb_spec i (Z.min hi m));
        reflexivity || lia).
  reflexivity.
Qed.

Lemma firstn_skipn_between (a b : nat) l :
  firstn (b - a) (skipn a l) = between (Z.of_nat a) (Z.of_nat b) 0 l.
Proof.
  revert a b. induction l as [ | v l' IH ]; intros a b.
  - now rewrite skipn_nil, firstn_nil.
  - cbn [between]. rewrite between_shift.
    destruct a as [ | a' ], b as [ | b' ].
    + simpl. symmetry. apply between_above. lia.
    + settle_cmp. simpl firstn. cbn [andb]. f_equal.
      replace (Z.of_nat (S b') - 1) with (Z.of_nat b') by lia.
      rewrite (between_below (Z.of_nat 0 - 1) (Z.of_nat 0)) by lia.
      rewrite <- IH. now rewrite Nat.sub_0_r.
    + rewrite andb_false_r. simpl. symmetry. apply between_above. lia.
    + settle_cmp.
      replace (Z.of_nat (S a') - 1) with (Z.of_nat a') by lia.
      replace (Z.of_nat (S b') - 1) with (Z.of_nat b') by lia.
      simpl. apply IH.
Qed.

(** A Python slice with bounds that are not negative keeps the elements at
    the indices [lo .. hi - 1]. *)
Lemma slice_between lo hi l :
  0 <= lo -> 0 <= hi -> slice lo hi l = between lo hi 0 l.
Proof.
  intros Hlo Hhi. unfold slice, slice_bound. settle_cmp.
  set (n := Z.of_nat (length l)).
  replace (Z.to_nat (Z.min hi n - Z.min lo n))
    with (Z.to_nat (Z.min hi n) - Z.to_nat (Z.min lo n))%nat by lia.
  rewrite firstn_skipn_between, !Z2Nat.id by lia.
  rewrite (between_clip lo hi 0 l). reflexivity.
Qed.

(** The selected elements are not exhausted while the lower index is a
    valid one and the range is not empty. *)
Lemma between_nonempty lo hi l :
  0 <= lo < Z.of_nat (length l) -> lo < hi -> between lo hi 0 l <> [].
Proof.
  intros Hlo Hhi Hnil.
  assert (Hlen : length (between lo hi 0 l) = 0%nat) by now rewrite Hnil.
  rewrite <- slice_between in Hlen by lia.
  unfold slice, slice_bound in Hlen.
  replace (lo <? 0) with false in Hlen by (symmetry; apply Z.ltb_ge; lia).
  replace (hi <? 0) with false in Hlen by (symmetry; apply Z.ltb_ge; lia).
  rewrite length_firstn, length_skipn in Hlen. lia.
Qed.

End Between.

(** A sliced channel, flattened, lists channel [k] of the pixels of the
    rectangle. *)
Lemma subchannel_in_rect (y0 y1 x0 x1 : Z) (k : pixel -> Z) (a : ndarray) :
  0 <= x0 -> 0 <= x1 -> 0 <= y0 -> 0 <= y1 ->
  reshape (subchannel y0 y1 x0 x1 k a) = map k (in_rect x0 x1 y0 y1 a).
Proof.
  intros Hx0 Hx1 Hy0 Hy1. unfold reshape, subchannel, in_rect.
  rewrite (slice_between y0 y1 a) by assumption.
  rewrite concat_map, map_map. f_equal.
  apply map_ext. intros row. now rewrite slice_between.
Qed.

Lemma int_mean_in_rect (y0 y1 x0 x1 : Z) (k : pixel -> Z) (a : ndarray) :
  0 <= x0 -> 0 <= x1 -> 0 <= y0 -> 0 <= y1 ->
  int_mean (subchannel y0 y1 x0 x1 k a) =
  channel_mean k (in_rect x0 x1 y0 y1 a).
Proof.
  intros Hx0 Hx1 Hy0 Hy1. unfold int_mean.
  rewrite subchannel_in_rect by assumption.
  unfold size, int_quot, channel_mean. rewrite length_map.
  destruct (in_rect x0 x1 y0 y1 a) as [ | p ps ]; [ reflexivity | ].
  destruct (Z.eqb_spec (Z.of_nat (length (p :: ps))) 0) as [E | _];
    [ simpl in E; lia | reflexivity ].
Qed.

(** [int(n / d)] rounds down when [n] is not negative and [d] is positive. *)
Lemma int_truediv_floor (n d : Z) :
  0 <= n -> 0 < d -> int_truediv n d = Some (n / d).
Proof.
  intros Hn Hd. unfold int_truediv.
  destruct (Z.eqb_spec d 0) as [E | _]; [ lia | ].
  now rewrite Z.quot_div_nonneg.
Qed.

(** On a negative numerator [int] rounds toward zero, that is up. *)
Lemma int_truediv_negative_example :
  int_truediv (-1 * 10) 20 = Some 0 /\ -1 * 10 / 20 = -1.
Proof. split; reflexivity. Qed.

Lemma regionRect_floor (self : CalculationThread.t) (isz : QSize.t) :
  0 < QSize.width (CalculationThread.lsize self) ->
  0 < QSize.height (CalculationThread.lsize self) ->
  0 <= QSize.width isz -> 0 <= QSize.height isz ->
  0 <= xmin self -> 0 <= ymin self ->
  CalculationThread.regionRect self isz =
  Some (xmin self * QSize.width isz / QSize.width (CalculationThread.lsize self),
        xmax self * QSize.width isz / QSize.width (CalculationThread.lsize self) + 1,
        ymin self * QSize.height isz / QSize.height (CalculationThread.lsize self),
        ymax self * QSize.height isz / QSize.height (CalculationThread.lsize self) + 1).
Proof.
  intros Hlw Hlh HW HH Hx Hy.
  assert (Hxm : 0 <= xmax self) by (unfold xmin, xmax in *; lia).
  assert (Hym : 0 <= ymax self) by (unfold ymin, ymax in *; lia).
  unfold CalculationThread.regionRect.
  fold (xmin self) (xmax self) (ymin self) (ymax self).
  rewrite !int_truediv_floor by (assumption || nia).
  reflexivity.
Qed.

(** On a rectangle with corners that are not negative, [computeRegion]
    averages every pixel of the rectangle. *)
Lemma computeRegion_means_in_rect (self : CalculationThread.t)
    (isz : QSize.t) (xo xd yo yd : Z) :
  CalculationThread.regionRect self isz = Some (xo, xd, yo, yd) ->
  0 <= xo -> 0 <= xd -> 0 <= yo -> 0 <= yd ->
  CalculationThread.computeRegion_means self isz =
  rgb_mean (in_rect xo xd yo yd (CalculationThread.arr self)).
Proof.
  intros Hrect Hxo Hxd Hyo Hyd.
  unfold CalculationThread.computeRegion_means. rewrite Hrect.
  rewrite !int_mean_in_rect by assumption.
  reflexivity.
Qed.

(** C7 (amended): for a selection with display coordinates that are not
    negative, on a display and an image of positive size, the rectangle in
    array
    coordinates is the selection scaled by image size over display size,
    its minimum corner rounded down and its maximum corner rounded down and
    extended by one; every array position inside the scaled selection lies
    in that rectangle; and the result is the truncated mean of each channel
    over all pixels of the rectangle, none filtered out. *)
Theorem computeRegion_rectangle_mean (self : CalculationThread.t)
    (isz : QSize.t) :
  0 < QSize.width (CalculationThread.lsize self) ->
  0 < QSize.height (CalculationThread.lsize self) ->
  0 < QSize.width isz -> 0 < QSize.height isz ->
  0 <= xmin self -> 0 <= ymin self ->
  exists xo xd yo yd,
    CalculationThread.regionRect self isz = Some (xo, xd, yo, yd) /\
    xo = xmin self * QSize.width isz
           / QSize.width (CalculationThread.lsize self) /\
    xd = xmax self * QSize.width isz
           / QSize.width (CalculationThread.lsize self) + 1 /\
    yo = ymin self * QSize.height isz
           / QSize.height (CalculationThread.lsize self) /\
    yd = ymax self * QSize.height isz
           / QSize.height (CalculationThread.lsize self) + 1 /\
    (forall px, xmin self * QSize.width isz
                  <= px * QSize.width (CalculationThread.lsize self)
                  <= xmax self * QSize.width isz ->
                xo <= px < xd) /\
    (forall py, ymin self * QSize.height isz
                  <= py * QSize.height (CalculationThread.lsize self)
                  <= ymax self * QSize.height isz ->
                yo <= py < yd) /\
    CalculationThread.computeRegion_means self isz =
      rgb_mean (in_rect xo xd yo yd (CalculationThread.arr self)).
Proof.
  intros Hlw Hlh HW HH Hx Hy.
  assert (Hxm : xmin self <= xmax self) by (unfold xmin, xmax; lia).
  assert (Hym : ymin self <= ymax self) by (unfold ymin, ymax; lia).
  pose proof (regionRect_floor self isz Hlw Hlh ltac:(lia) ltac:(lia) Hx Hy)
    as Hrect.
  set (lw := QSize.width (CalculationThread.lsize self)) in *.
  set (lh := QSize.height (CalculationThread.lsize self)) in *.
  set (W := QSize.width isz) in *. set (H := QSize.height isz) in *.
  pose proof (Z.mul_div_le (xmin self * W) lw Hlw) as Hxlo.
  pose proof (Z.mul_succ_div_gt (xmax self * W) lw Hlw) as Hxhi.
  pose proof (Z.mul_div_le (ymin self * H) lh Hlh) as Hylo.
  pose proof (Z.mul_succ_div_gt (ymax self * H) lh Hlh) as Hyhi.
  assert (Hxo : 0 <= xmin self * W / lw) by (apply Z.div_pos; nia).
  assert (Hxd : 0 <= xmax self * W / lw) by (apply Z.div_pos; nia).
  assert (Hyo : 0 <= ymin self * H / lh) by (apply Z.div_pos; nia).
  assert (Hyd : 0 <= ymax self * H / lh) by (apply Z.div_pos; nia).
  eexists _, _, _, _. split; [ exact Hrect | ].
  do 4 (split; [ reflexivity | ]).
  split; [ | split ].
  - intros px Hpx. nia.
  - intros py Hpy. nia.
  - apply computeRegion_means_in_rect; [ exact Hrect | lia .. ].
Qed.

Lemma computeRegion_rectangle_mean_witness :
  exists xo xd yo yd,
    CalculationThread.regionRect sel_grid (QSize.mk 4 4) =
      Some (xo, xd, yo, yd) /\
    xo = xmin sel_grid * 4 / 8 /\
    xd = xmax sel_grid * 4 / 8 + 1 /\
    yo = ymin sel_grid * 4 / 8 /\
    yd = ymax sel_grid * 4 / 8 + 1 /\
    (forall px, xmin sel_grid * 4 <= px * 8 <= xmax sel_grid * 4 ->
                xo <= px < xd) /\
    (forall py, ymin sel_grid * 4 <= py * 8 <= ymax sel_grid * 4 ->
                yo <= py < yd) /\
    CalculationThread.computeRegion_means sel_grid (QSize.mk 4 4) =
      rgb_mean (in_rect xo xd yo yd img_grid).
Proof.
  apply (computeRegion_rectangle_mean sel_grid (QSize.mk 4 4));
    vm_compute; (reflexivity || discriminate).
Defined.

(** What the region path does with the selection [sel_left], released two
    display pixels left of the label: the minimum corner -1 is taken by the
    slice as the last column, so column 3 alone is averaged, whereas the
    pixels of row 0 at the positions -1 <= x < 4 are those of columns
    0..3. With [sel_left_half], released one display pixel left of the
    label, the scaled minimum corner -1/2 is rounded up to 0. *)
Lemma computeRegion_left_example :
  CalculationThread.regionRect sel_left (QSize.mk 4 4) = Some (-1, 4, 0, 1) /\
  subchannel 0 1 (-1) 4 ch2 img_grid = [[40]] /\
  CalculationThread.computeRegion_means sel_left (QSize.mk 4 4) =
    Some (40, 0, 0) /\
  rgb_mean (in_rect (-1) 4 0 1 img_grid) = Some (25, 0, 0) /\
  CalculationThread.regionRect sel_left_half (QSize.mk 4 4) =
    Some (0, 4, 0, 1) /\
  xmin sel_left_half * 4 / 8 = -1.
Proof. repeat split; vm_compute; reflexivity. Qed.

(** C7, as stated, fails: without the condition on the sign of the
    coordinates, positive sizes alone do not give the scaled and rounded
    rectangle together with the mean over its pixels. On [sel_left] the
    means are (40, 0, 0), those of column 3, and not (25, 0, 0), those of
    the rectangle. *)
Lemma computeRegion_rectangle_mean_counterexample :
  ~ (forall (self : CalculationThread.t) (isz : QSize.t),
       0 < QSize.width (CalculationThread.lsize self) ->
       0 < QSize.height (CalculationThread.lsize self) ->
       0 < QSize.width isz -> 0 < QSize.height isz ->
       exists xo xd yo yd,
         CalculationThread.regionRect self isz = Some (xo, xd, yo, yd) /\
         xo = xmin self * QSize.width isz
                / QSize.width (CalculationThread.lsize self) /\
         xd = xmax self * QSize.width isz
                / QSize.width (CalculationThread.lsize self) + 1 /\
         yo = ymin self * QSize.height isz
                / QSize.height (CalculationThread.lsize self) /\
         yd = ymax self * QSize.height isz
                / QSize.height (CalculationThread.lsize self) + 1 /\
         (forall px, xmin self * QSize.width isz
                       <= px * QSize.width (CalculationThread.lsize self)
                       <= xmax self * QSize.width isz ->
                     xo <= px < xd) /\
         (forall py, ymin self * QSize.height isz
                       <= py * QSize.height (CalculationThread.lsize self)
                       <= ymax self * QSize.height isz ->
                     yo <= py < yd) /\
         CalculationThread.computeRegion_means self isz =
           rgb_mean (in_rect xo xd yo yd (CalculationThread.arr self))).
Proof.
  intros Hclaim.
  destruct (Hclaim sel_left (QSize.mk 4 4))
    as (xo & xd & yo & yd & Hrect & _ & _ & _ & _ & _ & _ & Hmean);
    try reflexivity.
  destruct computeRegion_left_example as (Hr & _ & Hm & Href & _).
  rewrite Hr in Hrect. injection Hrect as <- <- <- <-.
  change (CalculationThread.arr sel_left) with img_grid in Hmean.
  rewrite Hm, Href in Hmean. discriminate.
Qed.

(** The selection of [sel_grid] covers columns 1..2 and rows 1..3. *)
Lemma computeRegion_grid_example :
  CalculationThread.regionRect sel_grid (QSize.mk 4 4) = Some (1, 3, 1, 4) /\
  in_rect 1 3 1 4 img_grid =
    [rgb 20 50 0; rgb 30 50 0; rgb 20 0 90; rgb 30 0 90;
     rgb 20 70 70; rgb 30 70 70] /\
  CalculationThread.computeRegion_means sel_grid (QSize.mk 4 4) =
    Some (25, 40, 53).
Proof. repeat split; vm_compute; reflexivity. Qed.

(** Outside the display the mapping is no longer a clipping: the corner
    -2 of [sel_outside] counts from the right edge, the slice is empty and
    nothing is emitted. *)
Lemma computeRegion_outside_example :
  CalculationThread.regionRect sel_outside (QSize.mk 4 4) =
    Some (-2, 2, 1, 2) /\
  subchannel 1 2 (-2) 2 ch2 img_grid = [[]] /\
  CalculationThread.run sel_outside = None.
Proof. repeat split; vm_compute; reflexivity. Qed.

Lemma concat_map_nonempty {A B : Type} (f : A -> list B) (l : list A) :
  l <> [] -> (forall v, In v l -> f v <> []) -> concat (map f l) <> [].
Proof.
  destruct l as [ | v l' ]; [ congruence | ].
  intros _ Hf. simpl. specialize (Hf v (or_introl eq_refl)).
  destruct (f v); [ congruence | discriminate ].
Qed.

(** A rectangle that starts inside the array and is not empty holds a
    pixel. *)
Lemma in_rect_nonempty (h w x0 x1 y0 y1 : Z) (a : ndarray) :
  shape h w a ->
  0 <= x0 < w -> x0 < x1 -> 0 <= y0 < h -> y0 < y1 ->
  in_rect x0 x1 y0 y1 a <> [].
Proof.
  intros [Hh Hw] Hx0 Hx1 Hy0 Hy1. unfold in_rect.
  apply concat_map_nonempty.
  - apply between_nonempty; lia.
  - intros row Hrow. apply between_In in Hrow.
    rewrite Forall_forall in Hw. specialize (Hw row Hrow).
    apply between_nonempty; lia.
Qed.

Lemma rgb_mean_nonempty (ps : list pixel) :
  ps <> [] -> exists m, rgb_mean ps = Some m.
Proof.
  destruct ps as [ | p ps' ]; [ congruence | ].
  intros _. unfold rgb_mean, channel_mean. eexists. reflexivity.
Qed.

(** C10: for a selection with both corners on the displayed image, the
    display and the image having positive sizes, the rectangle in array
    coordinates starts inside the array and is at least one pixel wide and
    high, so it holds a pixel, the channel means are defined and
    [computeRegion] emits a value. *)
Theorem computeRegion_defined (self : CalculationThread.t) (isz : QSize.t) :
  shape (QSize.height isz) (QSize.width isz) (CalculationThread.arr self) ->
  0 < QSize.width isz -> 0 < QSize.height isz ->
  on_display (CalculationThread.lsize self) (CalculationThread.origin self) ->
  on_display (CalculationThread.lsize self)
             (CalculationThread.destination self) ->
  exists xo xd yo yd,
    CalculationThread.regionRect self isz = Some (xo, xd, yo, yd) /\
    (0 <= xo < QSize.width isz /\ xo + 1 <= xd) /\
    (0 <= yo < QSize.height isz /\ yo + 1 <= yd) /\
    in_rect xo xd yo yd (CalculationThread.arr self) <> [] /\
    (exists m, CalculationThread.computeRegion_means self isz = Some m) /\
    (exists value, CalculationThread.computeRegion self isz = Some value).
Proof.
  intros Hshape HW HH [Hox Hoy] [Hdx Hdy].
  set (lw := QSize.width (CalculationThread.lsize self)) in *.
  set (lh := QSize.height (CalculationThread.lsize self)) in *.
  assert (Hlw : 0 < lw) by lia. assert (Hlh : 0 < lh) by lia.
  assert (Hx : 0 <= xmin self <= xmax self /\ xmax self < lw)
    by (unfold xmin, xmax; lia).
  assert (Hy : 0 <= ymin self <= ymax self /\ ymax self < lh)
    by (unfold ymin, ymax; lia).
  pose proof (regionRect_floor self isz Hlw Hlh ltac:(lia) ltac:(lia)
                ltac:(lia) ltac:(lia)) as Hrect.
  fold lw lh in Hrect.
  set (W := QSize.width isz) in *. set (H := QSize.height isz) in *.
  assert (Hxo : 0 <= xmin self * W / lw < W).
  { split; [ apply Z.div_pos; nia | apply Z.div_lt_upper_bound; nia ]. }
  assert (Hxd : xmin self * W / lw <= xmax self * W / lw)
    by (apply Z.div_le_mono; nia).
  assert (Hyo : 0 <= ymin self * H / lh < H).
  { split; [ apply Z.div_pos; nia | apply Z.div_lt_upper_bound; nia ]. }
  assert (Hyd : ymin self * H / lh <= ymax self * H / lh)
    by (apply Z.div_le_mono; nia).
  assert (Hne : in_rect (xmin self * W / lw) (xmax self * W / lw + 1)
                        (ymin self * H / lh) (ymax self * H / lh + 1)
                        (CalculationThread.arr self) <> []).
  { apply (in_rect_nonempty H W); [ exact Hshape | lia .. ]. }
  destruct (rgb_mean_nonempty _ Hne) as [[[r g] b] Hmean].
  assert (Hmeans : CalculationThread.computeRegion_means self isz =
                   Some (r, g, b)).
  { rewrite (computeRegion_means_in_rect self isz _ _ _ _ Hrect) by lia.
    exact Hmean. }
  eexists _, _, _, _. split; [ exact Hrect | ].
  split; [ lia | ]. split; [ lia | ]. split; [ exact Hne | ].
  split; [ eexists; exact Hmeans | ].
  unfold CalculationThread.computeRegion. rewrite Hmeans.
  eexists. reflexivity.
Qed.

Lemma computeRegion_defined_witness :
  exists xo xd yo yd,
    CalculationThread.regionRect click_grid (QSize.mk 4 4) =
      Some (xo, xd, yo, yd) /\
    (0 <= xo < 4 /\ xo + 1 <= xd) /\
    (0 <= yo < 4 /\ yo + 1 <= yd) /\
    in_rect xo xd yo yd img_grid <> [] /\
    (exists m, CalculationThread.computeRegion_means click_grid (QSize.mk 4 4)
               = Some m) /\
    (exists value, CalculationThread.computeRegion click_grid (QSize.mk 4 4)
                   = Some value).
Proof.
  apply (computeRegion_defined click_grid (QSize.mk 4 4)).
  - split; [ reflexivity | repeat constructor ].
  - reflexivity.
  - reflexivity.
  - unfold on_display; simpl; lia.
  - unfold on_display; simpl; lia.
Defined.

(** The click of [click_grid] selects the one pixel at column 3, row 3. *)
Lemma computeRegion_click_example :
  CalculationThread.regionRect click_grid (QSize.mk 4 4) = Some (3, 4, 3, 4) /\
  CalculationThread.computeRegion_means click_grid (QSize.mk 4 4) =
    Some (40, 70, 70) /\
  CalculationThread.run click_grid = Some 240.
Proof. repeat split; vm_compute; reflexivity. Qed.

(** ** The log *)

Lemma newlines_app (s1 s2 : string) :
  newlines (s1 ++ s2) = (newlines s1 + newlines s2)%nat.
Proof.
  induction s1 as [ | c s1' IH ]; simpl; [ reflexivity | ].
  rewrite IH. lia.
Qed.

Lemma newlines_uint (d : Decimal.uint) :
  newlines (NilEmpty.string_of_uint d) = 0%nat.
Proof.
  induction d; simpl; try rewrite IHd; reflexivity.
Qed.

(** The decimal rendering of an integer holds no line terminator. *)
Lemma newlines_str (value : Z) : newlines (str value) = 0%nat.
Proof.
  unfold str, NilZero.string_of_int, NilZero.string_of_uint.
  destruct (Z.to_int value) as [ d | d ]; destruct d;
    simpl; rewrite ?newlines_uint; reflexivity.
Qed.

(** A log line ends the one line it writes: besides the terminators the
    file path may hold, it has exactly one, its last character. *)
Lemma newlines_logLine (file : string) (value : Z) :
  newlines (MainWindow.logLine file value) = (newlines file + 1)%nat.
Proof.
  unfold MainWindow.logLine.
  rewrite !newlines_app, newlines_str. reflexivity.
Qed.

(** The slots other than [logValue] leave the log and the file name alone. *)
Lemma hueCalculated_log (value : Z) (w : MainWindow.t) :
  MainWindow.ozone_log (MainWindow.hueCalculated value w) =
  (MainWindow.ozone_log w
     ++ MainWindow.logLine (MainWindow.currentFile w) value)%string.
Proof. reflexivity. Qed.

(** C9: an analysis that emits a value appends to the log exactly the line
    made of the file path, a space, the decimal value and a line
    terminator, after the content already there; an analysis that raises
    leaves the window, and with it the log, as it was; and opening a file
    that cannot be loaded leaves the log as it was. *)
Theorem analyse_log :
  (forall th w,
     match CalculationThread.run th with
     | Some value =>
         MainWindow.ozone_log (MainWindow.analyse th w) =
           (MainWindow.ozone_log w ++
            (MainWindow.currentFile w ++ " " ++ str value ++ nl))%string /\
         newlines (" " ++ str value ++ nl) = 1%nat
     | None => MainWindow.analyse th w = w
     end) /\
  (forall fileName w,
     MainWindow.ozone_log (MainWindow.openf fileName None w) =
     MainWindow.ozone_log w).
Proof.
  split.
  - intros th w. unfold MainWindow.analyse.
    destruct (CalculationThread.run th) as [ value | ]; [ | reflexivity ].
    split.
    + apply hueCalculated_log.
    + rewrite !newlines_app, newlines_str. reflexivity.
  - reflexivity.
Qed.

(** X19: opening a file that loads appends to the log the whole-image
    value under the name of the file just opened, whatever file was current
    before, or nothing when the whole-image computation raises. *)
Lemma openf_log (fileName : string) (a : ndarray) (w : MainWindow.t) :
  MainWindow.ozone_log (MainWindow.openf fileName (Some a) w) =
  match CalculationThread.run (whole a) with
  | Some value =>
      (MainWindow.ozone_log w ++ MainWindow.logLine fileName value)%string
  | None => MainWindow.ozone_log w
  end.
Proof.
  unfold MainWindow.openf, MainWindow.analyse. cbv zeta.
  destruct (CalculationThread.run (whole a)); reflexivity.
Qed.

(** The log after opening the gray image [a.png], and after opening the
    blue one. *)
Lemma analyse_log_example :
  MainWindow.ozone_log
    (MainWindow.openf "a.png" (Some img_gray)
       (MainWindow.mk "" 0 60 0 ("b.png 12" ++ nl))) =
    ("b.png 12" ++ nl ++ "a.png 61" ++ nl)%string /\
  MainWindow.ozone_log
    (MainWindow.openf "c.png" (Some img_blue)
       (MainWindow.mk "" 0 60 0 ("b.png 12" ++ nl))) =
    ("b.png 12" ++ nl)%string.
Proof. split; vm_compute; reflexivity. Qed.

(** * Further properties of the program *)

(** ** HueScale on the whole hue range *)

(** X1: the conversion is an involution of [0,359], gap included: it maps
    [0,359] into itself, and converting a hue to the scale and back, or a
    scale value to a hue and back, returns the starting value. *)
Theorem hueToScale_round_trip (h : Z) :
  0 <= h <= 359 ->
  0 <= hueToScale h <= 359 /\
  scaleToHue (hueToScale h) = h /\
  hueToScale (scaleToHue h) = h.
Proof.
  intros Hh. unfold scaleToHue.
  rewrite hueToScale_involutive by exact Hh.
  repeat split; try reflexivity;
    destruct (Z_le_gt_dec h 60) as [Hle | Hgt];
    (rewrite hueToScale_low by lia) || (rewrite hueToScale_high by lia);
    lia.
Qed.

Lemma hueToScale_round_trip_witness :
  0 <= hueToScale 100 <= 359 /\
  scaleToHue (hueToScale 100) = 100 /\
  hueToScale (scaleToHue 100) = 100.
Proof.
  apply (hueToScale_round_trip 100). lia.
Defined.

(** X2: on the hues Qt reports, -1 (achromatic) and 0..359, two hues get
    the same scale value only if they are equal or are -1 and 359: gray is
    reported as hue 359 is, and nothing else is confused. *)
Theorem hueToScale_collisions (h1 h2 : Z) :
  -1 <= h1 <= 359 -> -1 <= h2 <= 359 ->
  (hueToScale h1 = hueToScale h2 <->
   h1 = h2 \/ (h1 = -1 /\ h2 = 359) \/ (h1 = 359 /\ h2 = -1)).
Proof.
  intros H1 H2.
  assert (Hval : forall h, -1 <= h <= 359 ->
            hueToScale h = if h <=? 60 then 60 - h else 420 - h).
  { intros h Hh. destruct (Z.leb_spec h 60).
    - apply hueToScale_low. lia.
    - apply hueToScale_high. lia. }
  rewrite (Hval h1 H1), (Hval h2 H2).
  destruct (Z.leb_spec h1 60), (Z.leb_spec h2 60); lia.
Qed.

Lemma hueToScale_collisions_witness :
  hueToScale (-1) = hueToScale 359 <->
  -1 = 359 \/ (-1 = -1 /\ 359 = 359) \/ (-1 = 359 /\ 359 = -1).
Proof.
  apply (hueToScale_collisions (-1) 359); lia.
Defined.

(** X3: on the hues Qt reports the scale value lies on the advertised scale
    0..180 exactly when the hue is outside the gap 61..239; it is never
    negative. *)
Theorem hueToScale_on_scale (h : Z) :
  -1 <= h <= 359 ->
  0 <= hueToScale h /\
  (hueToScale h <= 180 <-> h <= 60 \/ 240 <= h).
Proof.
  intros Hh. destruct (Z_le_gt_dec h 60) as [Hle | Hgt].
  - rewrite hueToScale_low by lia. lia.
  - rewrite hueToScale_high by lia. lia.
Qed.

Lemma hueToScale_on_scale_witness :
  0 <= hueToScale 180 /\
  (hueToScale 180 <= 180 <-> 180 <= 60 \/ 240 <= 180).
Proof.
  apply (hueToScale_on_scale 180). lia.
Defined.

(** X4: when the value emitted comes from a hue of 0..359, the slots show
    that value on the LCD and as the pointer of the scale, and give the
    colour swatch the very hue the value came from; the file name is not
    touched. *)
Theorem hueCalculated_shows_hue (h : Z) (w : MainWindow.t) :
  0 <= h <= 359 ->
  MainWindow.lcd (MainWindow.hueCalculated (hueToScale h) w) = hueToScale h /\
  MainWindow.pointer (MainWindow.hueCalculated (hueToScale h) w) =
    hueToScale h /\
  MainWindow.colorw (MainWindow.hueCalculated (hueToScale h) w) = h /\
  MainWindow.currentFile (MainWindow.hueCalculated (hueToScale h) w) =
    MainWindow.currentFile w.
Proof.
  intros Hh. repeat split; try reflexivity.
  simpl. unfold scaleToHue. now apply hueToScale_involutive.
Qed.

Lemma hueCalculated_shows_hue_witness :
  MainWindow.lcd
    (MainWindow.hueCalculated (hueToScale 300)
       (MainWindow.mk "a.png" 0 60 0 "")) = hueToScale 300 /\
  MainWindow.pointer
    (MainWindow.hueCalculated (hueToScale 300)
       (MainWindow.mk "a.png" 0 60 0 "")) = hueToScale 300 /\
  MainWindow.colorw
    (MainWindow.hueCalculated (hueToScale 300)
       (MainWindow.mk "a.png" 0 60 0 "")) = 300 /\
  MainWindow.currentFile
    (MainWindow.hueCalculated (hueToScale 300)
       (MainWindow.mk "a.png" 0 60 0 "")) =
    MainWindow.currentFile (MainWindow.mk "a.png" 0 60 0 "").
Proof.
  apply (hueCalculated_shows_hue 300). lia.
Defined.

(** ** The whole-image path, told from the pixels *)

Lemma nvals_at_red_candidates (thr : Z) (self : CalculationThread.t) :
  nvals_at thr self =
  Z.of_nat (length (red_candidates thr (CalculationThread.arr self))).
Proof. apply nvals_at_spec. Qed.

Lemma active_threshold_of (self : CalculationThread.t) :
  active_threshold self = threshold_of (CalculationThread.arr self).
Proof.
  unfold active_threshold, threshold_of.
  now rewrite nvals_at_red_candidates.
Qed.

Lemma filter_nonempty_iff {A : Type} (f : A -> bool) (l : list A) :
  length (filter f l) <> 0%nat <-> exists v, In v l /\ f v = true.
Proof.
  split.
  - destruct (filter f l) as [ | v l' ] eqn:E; [ intros H; now elim H | ].
    intros _. exists v. apply filter_In. rewrite E. now left.
  - intros [v Hv]. apply filter_In in Hv.
    destruct (filter f l); [ contradiction | discriminate ].
Qed.

(** The whole-image means in terms of the pixels. *)
Lemma computeAll_means_unfold (self : CalculationThread.t) :
  CalculationThread.computeAll_means self =
  let a := CalculationThread.arr self in
  let n := Z.of_nat (length (red_candidates (threshold_of a) a)) in
  if n =? 0 then None
  else Some (Z.quot (sum (map ch2 (candidates (threshold_of a) a))) n,
             Z.quot (sum (map ch1 (candidates (threshold_of a) a))) n,
             Z.quot (sum (map ch0 (candidates (threshold_of a) a))) n).
Proof.
  rewrite computeAll_means_eq. cbv zeta.
  now rewrite nvals_at_red_candidates, active_threshold_of.
Qed.

(** X5: the array operations of the whole-image computation amount to
    this. Let T be 250 when fewer than 100 pixels have all channels below
    150 and a red value that is not zero, and 150 otherwise. Each channel
    is summed over the pixels with all channels below T, and each sum is
    divided, truncating, by the number of those pixels whose red value is
    not zero; when that number is zero the computation raises. *)
Theorem computeAll_means_pixels (self : CalculationThread.t) :
  CalculationThread.computeAll_means self =
  let a := CalculationThread.arr self in
  let n := Z.of_nat (length (red_candidates (threshold_of a) a)) in
  if n =? 0 then None
  else Some (Z.quot (sum (map ch2 (candidates (threshold_of a) a))) n,
             Z.quot (sum (map ch1 (candidates (threshold_of a) a))) n,
             Z.quot (sum (map ch0 (candidates (threshold_of a) a))) n).
Proof. apply computeAll_means_unfold. Qed.

Lemma red_candidates_pixel (thr : Z) (a : ndarray) :
  length (red_candidates thr a) <> 0%nat <->
  exists p, In p (concat a) /\ maxc p < thr /\ ch2 p <> 0.
Proof.
  unfold red_candidates, candidates.
  rewrite filter_nonempty_iff. split.
  - intros [p [Hin Hred]]. apply filter_In in Hin as [Hin Hmax].
    exists p. split; [ exact Hin | ]. split.
    + now apply Z.ltb_lt.
    + intros E. rewrite E in Hred. discriminate.
  - intros [p [Hin [Hmax Hred]]]. exists p. split.
    + apply filter_In. split; [ exact Hin | now apply Z.ltb_lt ].
    + destruct (Z.eqb_spec (ch2 p) 0); [ contradiction | reflexivity ].
Qed.

(** The divisor in force is not zero exactly when some pixel has its
    three channels below 250 and a red value that is not zero. *)
Lemma divisor_pixel (a : ndarray) :
  Z.of_nat (length (red_candidates (threshold_of a) a)) <> 0 <->
  exists p, In p (concat a) /\ maxc p < 250 /\ ch2 p <> 0.
Proof.
  unfold threshold_of.
  destruct (Z.ltb_spec (Z.of_nat (length (red_candidates 150 a))) 100)
    as [Hfew | Hmany].
  - rewrite <- (red_candidates_pixel 250). lia.
  - split.
    + intros _.
      assert (H150 : length (red_candidates 150 a) <> 0%nat) by lia.
      apply red_candidates_pixel in H150 as [p [Hin [Hmax Hred]]].
      exists p. repeat split; [ exact Hin | lia | exact Hred ].
    + intros _. lia.
Qed.

(** On an array of bytes every mean the whole-image computation returns is
    bounded by 255 times the number of pixels. *)
Lemma computeAll_means_bounded (a : ndarray) (r g b : Z) :
  array_ok a ->
  CalculationThread.computeAll_means (whole a) = Some (r, g, b) ->
  0 <= r <= 255 * Z.of_nat (length (concat a)) /\
  0 <= g <= 255 * Z.of_nat (length (concat a)) /\
  0 <= b <= 255 * Z.of_nat (length (concat a)).
Proof.
  intros Hok Hmeans. rewrite computeAll_means_unfold in Hmeans.
  cbv zeta in Hmeans. change (CalculationThread.arr (whole a)) with a in Hmeans.
  set (T := threshold_of a) in *.
  set (n := Z.of_nat (length (red_candidates T a))) in *.
  destruct (Z.eqb_spec n 0) as [ | Hn ]; [ discriminate | ].
  assert (Hn' : 1 <= n) by (subst n; lia).
  assert (Hlen : Z.of_nat (length (candidates T a)) <=
                 Z.of_nat (length (concat a)))
    by (apply Nat2Z.inj_le, filter_length_le).
  assert (Hpix : Forall pixel_ok (candidates T a)).
  { apply Forall_forall. intros p Hp. unfold candidates in Hp.
    apply filter_In in Hp as [Hp _].
    assert (Hall : Forall pixel_ok (concat a)) by now apply Forall_concat.
    rewrite Forall_forall in Hall. now apply Hall. }
  assert (Hk : forall k, (forall p, pixel_ok p -> uint8 (k p)) ->
            0 <= Z.quot (sum (map k (candidates T a))) n
              <= 255 * Z.of_nat (length (concat a))).
  { intros k Hkp.
    assert (Hs : 0 <= sum (map k (candidates T a))
                   <= 255 * Z.of_nat (length (candidates T a))).
    { apply sum_uint8. eapply Forall_impl; [ | exact Hpix ]. exact Hkp. }
    rewrite Z.quot_div_nonneg by lia. split.
    - apply Z.div_pos; lia.
    - apply Z.div_le_upper_bound; nia. }
  injection Hmeans as <- <- <-.
  split; [ | split ]; apply Hk; intros p (H0 & H1 & H2 & H3); assumption.
Qed.

(** X6: the whole-image computation obtains its three means exactly when
    some pixel of the image has its three channels below 250 and a red
    value that is not zero, and it emits a value only then: an image
    without red, or wholly overexposed, yields nothing. Conversely, on an
    array of bytes with fewer than 2^31 / 255 pixels, such a pixel is
    enough for a value to be emitted: the means then lie within the range
    of a C [int], which the colour constructor accepts. *)
Theorem computeAll_emits_iff_pixel (a : ndarray) :
  ((exists m, CalculationThread.computeAll_means (whole a) = Some m) <->
   (exists p, In p (concat a) /\ maxc p < 250 /\ ch2 p <> 0)) /\
  ((exists value, CalculationThread.run (whole a) = Some value) ->
   (exists p, In p (concat a) /\ maxc p < 250 /\ ch2 p <> 0)) /\
  (array_ok a -> 255 * Z.of_nat (length (concat a)) < 2 ^ 31 ->
   (exists p, In p (concat a) /\ maxc p < 250 /\ ch2 p <> 0) ->
   exists r g b value,
     CalculationThread.computeAll_means (whole a) = Some (r, g, b) /\
     c_int r /\ c_int g /\ c_int b /\
     CalculationThread.run (whole a) = Some value).
Proof.
  assert (Hmeans :
    (exists m, CalculationThread.computeAll_means (whole a) = Some m) <->
    (exists p, In p (concat a) /\ maxc p < 250 /\ ch2 p <> 0)).
  { rewrite <- divisor_pixel, computeAll_means_unfold. cbv zeta.
    change (CalculationThread.arr (whole a)) with a.
    destruct (Z.eqb_spec
                (Z.of_nat (length (red_candidates (threshold_of a) a))) 0)
      as [E | NE].
    - split; [ intros [m Hm]; discriminate | intros H; contradiction ].
    - split; [ intros _; exact NE | intros _; eexists; reflexivity ]. }
  split; [ exact Hmeans | split ].
  - intros [value Hvalue]. apply Hmeans.
    change (CalculationThread.computeAll (whole a) = Some value) in Hvalue.
    unfold CalculationThread.computeAll in Hvalue.
    destruct (CalculationThread.computeAll_means (whole a)) as [ m | ];
      [ now exists m | discriminate ].
  - intros Hok Hsize Hpixel.
    apply Hmeans in Hpixel as [[[r g] b] Hm].
    destruct (computeAll_means_bounded a r g b Hok Hm) as (Hr & Hg & Hb).
    exists r, g, b, (hueToScale (QColor.hue r g b)).
    split; [ exact Hm | ].
    unfold c_int. repeat split; try lia.
    change (CalculationThread.computeAll (whole a) =
            Some (hueToScale (QColor.hue r g b))).
    unfold CalculationThread.computeAll. now rewrite Hm.
Qed.

Lemma computeAll_emits_iff_pixel_witness :
  exists r g b value,
    CalculationThread.computeAll_means (whole img_zero_red) = Some (r, g, b) /\
    c_int r /\ c_int g /\ c_int b /\
    CalculationThread.run (whole img_zero_red) = Some value.
Proof.
  destruct (computeAll_emits_iff_pixel img_zero_red) as (_ & _ & Hemit).
  apply Hemit.
  - repeat constructor; vm_compute; discriminate.
  - vm_compute. reflexivity.
  - exists (rgb 10 20 30). split; [ now left | ].
    split; [ vm_compute; reflexivity | discriminate ].
Defined.

Lemma red_candidates_all (thr : Z) (a : ndarray) :
  thr <= 250 ->
  (forall p, In p (concat a) -> maxc p < 250 -> ch2 p <> 0) ->
  red_candidates thr a = candidates thr a.
Proof.
  intros Hthr Hred. unfold red_candidates.
  assert (Hall : Forall (fun p => ch2 p <> 0) (candidates thr a)).
  { apply Forall_forall. intros p Hin. unfold candidates in Hin.
    apply filter_In in Hin as [Hin Hmax]. apply Z.ltb_lt in Hmax.
    apply Hred; [ exact Hin | lia ]. }
  induction Hall as [ | p l Hp _ IH ]; simpl; [ reflexivity | ].
  destruct (Z.eqb_spec (ch2 p) 0); [ contradiction | ].
  simpl. now rewrite IH.
Qed.

(** X7: when every pixel with its three channels below 250 has a red value
    that is not zero, the whole-image means are the truncated means over
    the pixels below the threshold, the threshold being 150 if at least 100
    pixels are below it and 250 otherwise; without such pixels the
    computation raises. *)
Theorem computeAll_true_mean (self : CalculationThread.t) :
  (forall p, In p (concat (CalculationThread.arr self)) ->
             maxc p < 250 -> ch2 p <> 0) ->
  CalculationThread.computeAll_means self =
  rgb_mean (candidates (threshold_by_candidates (CalculationThread.arr self))
                       (CalculationThread.arr self)).
Proof.
  intros Hred. set (a := CalculationThread.arr self) in *.
  assert (Hthr : active_threshold self = threshold_by_candidates a).
  { rewrite active_threshold_of. fold a.
    unfold threshold_of, threshold_by_candidates.
    now rewrite red_candidates_all by (lia || assumption). }
  rewrite <- Hthr. apply computeAll_means_red_nonzero.
  rewrite Hthr. apply Forall_forall. intros p Hin.
  unfold candidates in Hin. apply filter_In in Hin as [Hin Hmax].
  apply Z.ltb_lt in Hmax. apply Hred; [ exact Hin | ].
  unfold threshold_by_candidates in Hmax.
  destruct (Z.of_nat (length (candidates 150 a)) <? 100); lia.
Qed.

Lemma computeAll_true_mean_witness :
  CalculationThread.computeAll_means (whole img_orange) =
  rgb_mean (candidates (threshold_by_candidates img_orange) img_orange).
Proof.
  apply (computeAll_true_mean (whole img_orange)).
  intros p Hin _. simpl in Hin.
  repeat (destruct Hin as [<- | Hin]; [ discriminate | ]).
  contradiction.
Defined.

Lemma sum_nonzero_only (k : pixel -> Z) (ps : list pixel) :
  sum (map k ps) = sum (map k (filter (fun p => negb (k p =? 0)) ps)).
Proof.
  induction ps as [ | p ps' IH ]; [ reflexivity | ].
  cbn [map filter sum fold_right]. fold (sum (map k ps')).
  destruct (Z.eqb_spec (k p) 0) as [E | _]; simpl.
  - rewrite E, IH. reflexivity.
  - fold (sum (map k (filter (fun p => negb (k p =? 0)) ps'))).
    now rewrite IH.
Qed.

Lemma sum_between (k : pixel -> Z) (lo hi : Z) (ps : list pixel) :
  Forall (fun p => lo <= k p <= hi) ps ->
  lo * Z.of_nat (length ps) <= sum (map k ps) <= hi * Z.of_nat (length ps).
Proof.
  induction 1 as [ | p ps' Hp _ IH ]; [ simpl; lia | ].
  cbn [map sum fold_right length]. fold (sum (map k ps')). lia.
Qed.

Lemma threshold_of_cases (a : ndarray) :
  threshold_of a = 150 \/ threshold_of a = 250.
Proof.
  unfold threshold_of.
  destruct (Z.of_nat (length (red_candidates 150 a)) <? 100); auto.
Qed.

(** X8: whatever the image, as long as no red value is negative, the red
    mean the whole-image computation returns lies between 1 and 249: it is
    never zero and always below the threshold in force. *)
Theorem computeAll_red_mean_bounds (self : CalculationThread.t) (r g b : Z) :
  (forall p, In p (concat (CalculationThread.arr self)) -> 0 <= ch2 p) ->
  CalculationThread.computeAll_means self = Some (r, g, b) ->
  1 <= r < threshold_of (CalculationThread.arr self) /\ r <= 249.
Proof.
  intros Hpos Hmeans. rewrite computeAll_means_unfold in Hmeans.
  cbv zeta in Hmeans.
  set (a := CalculationThread.arr self) in *.
  set (T := threshold_of a) in *.
  set (n := Z.of_nat (length (red_candidates T a))) in *.
  destruct (Z.eqb_spec n 0) as [ | Hn ]; [ discriminate | ].
  injection Hmeans as Hr _ _.
  assert (Hn' : 0 < n) by (subst n; lia).
  assert (Hreds : Forall (fun p => 1 <= ch2 p <= T - 1) (red_candidates T a)).
  { apply Forall_forall. intros p Hin. unfold red_candidates in Hin.
    apply filter_In in Hin as [Hin Hnz]. unfold candidates in Hin.
    apply filter_In in Hin as [Hin Hmax]. apply Z.ltb_lt in Hmax.
    specialize (Hpos p Hin).
    destruct (Z.eqb_spec (ch2 p) 0); [ discriminate | ].
    unfold maxc in Hmax. lia. }
  apply sum_between in Hreds. fold n in Hreds.
  assert (Hsum : sum (map ch2 (candidates T a)) =
                 sum (map ch2 (red_candidates T a)))
    by apply sum_nonzero_only.
  rewrite Hsum in Hr. rewrite Z.quot_div_nonneg in Hr by lia.
  assert (Hlo : 1 <= r).
  { rewrite <- Hr. apply Z.div_le_lower_bound; lia. }
  assert (Hhi : r < T).
  { rewrite <- Hr. apply Z.div_lt_upper_bound; nia. }
  pose proof (threshold_of_cases a) as HT. fold T in HT. lia.
Qed.

Lemma computeAll_red_mean_bounds_witness :
  1 <= 10 < threshold_of (CalculationThread.arr (whole img_zero_red)) /\
  10 <= 249.
Proof.
  apply (computeAll_red_mean_bounds (whole img_zero_red) 10 40 60).
  - intros p Hin. simpl in Hin.
    repeat (destruct Hin as [<- | Hin]; [ simpl; lia | ]). contradiction.
  - vm_compute. reflexivity.
Defined.

(** ** Pixel order *)

Lemma Permutation_filter_keep {A : Type} (f : A -> bool) (l l' : list A) :
  Permutation l l' -> Permutation (filter f l) (filter f l').
Proof.
  induction 1 as [ | v l l' _ IH | u v l | l l' l'' _ IH1 _ IH2 ]; simpl.
  - constructor.
  - destruct (f v); [ now constructor | exact IH ].
  - destruct (f u), (f v); try apply Permutation_refl. constructor.
  - now transitivity (filter f l').
Qed.

Lemma sum_Permutation (l l' : list Z) :
  Permutation l l' -> sum l = sum l'.
Proof.
  unfold sum.
  induction 1 as [ | v l l' _ IH | u v l | l l' l'' _ IH1 _ IH2 ];
    simpl; lia.
Qed.

(** A mirrored image holds the same pixels. *)
Lemma mirrored_same_pixels (a : ndarray) :
  Permutation (concat a) (concat (map (@rev pixel) a)).
Proof.
  induction a as [ | row a' IH ]; simpl; [ constructor | ].
  apply Permutation_app; [ apply Permutation_rev | exact IH ].
Qed.

(** X9: the whole-image result depends on the pixels of the image and not
    on where they stand: two arrays holding the same pixels in any
    arrangement (a mirrored, flipped or rotated picture) give the same
    means and emit the same value. *)
Theorem computeAll_pixel_order (a b : ndarray) :
  Permutation (concat a) (concat b) ->
  CalculationThread.computeAll_means (whole a) =
    CalculationThread.computeAll_means (whole b) /\
  CalculationThread.run (whole a) = CalculationThread.run (whole b).
Proof.
  intros Hperm.
  assert (Hcand : forall thr, Permutation (candidates thr a) (candidates thr b))
    by (intros thr; now apply Permutation_filter_keep).
  assert (Hred : forall thr,
            length (red_candidates thr a) = length (red_candidates thr b)).
  { intros thr. apply Permutation_length, Permutation_filter_keep, Hcand. }
  assert (Hthr : threshold_of a = threshold_of b)
    by (unfold threshold_of; now rewrite Hred).
  assert (Hsum : forall k thr, sum (map k (candidates thr a)) =
                                sum (map k (candidates thr b))).
  { intros k thr. apply sum_Permutation, Permutation_map, Hcand. }
  assert (Hmeans : CalculationThread.computeAll_means (whole a) =
                   CalculationThread.computeAll_means (whole b)).
  { rewrite !computeAll_means_unfold. cbv zeta.
    change (CalculationThread.arr (whole a)) with a.
    change (CalculationThread.arr (whole b)) with b.
    now rewrite Hthr, Hred, !Hsum. }
  split; [ exact Hmeans | ].
  change (CalculationThread.computeAll (whole a) =
          CalculationThread.computeAll (whole b)).
  unfold CalculationThread.computeAll. now rewrite Hmeans.
Qed.

Lemma computeAll_pixel_order_witness :
  CalculationThread.computeAll_means (whole img_grid) =
    CalculationThread.computeAll_means (whole img_grid_mirrored) /\
  CalculationThread.run (whole img_grid) =
    CalculationThread.run (whole img_grid_mirrored).
Proof.
  apply (computeAll_pixel_order img_grid img_grid_mirrored).
  apply mirrored_same_pixels.
Defined.

(** ** The region path: selections that give the same rectangle *)

Lemma computeRegion_same_rect (self self' : CalculationThread.t)
    (isz isz' : QSize.t) :
  CalculationThread.arr self = CalculationThread.arr self' ->
  CalculationThread.regionRect self isz =
    CalculationThread.regionRect self' isz' ->
  CalculationThread.computeRegion self isz =
    CalculationThread.computeRegion self' isz'.
Proof.
  intros Harr Hrect.
  unfold CalculationThread.computeRegion, CalculationThread.computeRegion_means.
  now rewrite Harr, Hrect.
Qed.

(** X10: the region result depends on the rectangle dragged, not on the
    direction of the drag: exchanging press and release points, or
    exchanging only their ordinates (dragging along the other diagonal),
    emits the same value. *)
Theorem computeRegion_drag_direction (a : ndarray) (isz l : QSize.t)
    (o d : QPoint.t) :
  CalculationThread.run (region a isz l d o) =
    CalculationThread.run (region a isz l o d) /\
  CalculationThread.run
    (region a isz l (QPoint.mk (QPoint.x o) (QPoint.y d))
                    (QPoint.mk (QPoint.x d) (QPoint.y o))) =
    CalculationThread.run (region a isz l o d).
Proof.
  split; apply computeRegion_same_rect; try reflexivity;
    unfold CalculationThread.regionRect, region; simpl.
  - now rewrite (Z.min_comm (QPoint.x d)), (Z.max_comm (QPoint.x d)),
      (Z.min_comm (QPoint.y d)), (Z.max_comm (QPoint.y d)).
  - now rewrite (Z.min_comm (QPoint.y d)), (Z.max_comm (QPoint.y d)).
Qed.




(** X16: a label of width or height zero makes the region computation
    raise (a division by zero): nothing is emitted. *)
Theorem computeRegion_zero_display (a : ndarray) (isz l : QSize.t)
    (o d : QPoint.t) :
  QSize.width l = 0 \/ QSize.height l = 0 ->
  CalculationThread.run (region a isz l o d) = None.
Proof.
  intros Hzero. destruct l as [lw lh]. simpl in Hzero.
  change (CalculationThread.computeRegion (region a isz (QSize.mk lw lh) o d)
            isz = None).
  unfold CalculationThread.computeRegion, CalculationThread.computeRegion_means,
    CalculationThread.regionRect, int_truediv. cbn [region
    CalculationThread.lsize CalculationThread.origin
    CalculationThread.destination QSize.width QSize.height].
  destruct Hzero as [-> | ->].
  - reflexivity.
  - destruct (lw =? 0); reflexivity.
Qed.

Lemma computeRegion_zero_display_witness :
  CalculationThread.run
    (region img_grid (QSize.mk 4 4) (QSize.mk 0 8) (QPoint.mk 0 0)
            (QPoint.mk 0 0)) = None.
Proof.
  apply (computeRegion_zero_display img_grid (QSize.mk 4 4) (QSize.mk 0 8)).
  left. reflexivity.
Defined.

(** ** The region path: which pixels are averaged *)

Lemma between_single {A : Type} (lo i : Z) (l : list A) :
  i <= lo ->
  between lo (lo + 1) i l =
  match nth_error l (Z.to_nat (lo - i)) with
  | Some v => [v]
  | None => []
  end.
Proof.
  revert i. induction l as [ | v l' IH ]; intros i Hi; cbn [between].
  - now destruct (Z.to_nat (lo - i)).
  - destruct (Z.eq_dec lo i) as [-> | Hne].
    + settle_cmp. rewrite Z.sub_diag. simpl.
      rewrite between_above by lia. reflexivity.
    + settle_cmp. cbn [andb]. rewrite IH by lia.
      replace (Z.to_nat (lo - i)) with (S (Z.to_nat (lo - (i + 1)))) by lia.
      reflexivity.
Qed.

Lemma between_beyond {A : Type} (lo hi i : Z) (l : list A) :
  i + Z.of_nat (length l) <= lo -> between lo hi i l = [].
Proof.
  revert i. induction l as [ | v l' IH ]; intros i Hi; cbn [between];
    [ reflexivity | ].
  cbn [length] in Hi. settle_cmp. cbn [andb]. apply IH. lia.
Qed.

Lemma in_rect_click (a : ndarray) (x y : Z) (p : pixel) :
  0 <= x -> 0 <= y -> pixel_at a x y = Some p ->
  in_rect x (x + 1) y (y + 1) a = [p].
Proof.
  intros Hx Hy Hp. unfold pixel_at in Hp. unfold in_rect.
  rewrite (between_single y 0 a) by lia. rewrite Z.sub_0_r.
  destruct (nth_error a (Z.to_nat y)) as [ row | ] eqn:Hrow.
  - rewrite (nth_error_nth a (Z.to_nat y) [] Hrow) in Hp.
    simpl. rewrite between_single by lia. rewrite Z.sub_0_r, Hp.
    reflexivity.
  - apply nth_error_None in Hrow.
    rewrite nth_overflow in Hp by exact Hrow.
    now destruct (Z.to_nat x).
Qed.

(** X12: at full size, the label as large as the image, a drag between
    two points with coordinates that are not negative selects the columns
    and rows from the smaller to the larger coordinate, both included; and
    a click on a pixel of the array, without drag, returns that pixel's
    colour as the means. *)
Theorem computeRegion_full_size (a : ndarray) (isz : QSize.t)
    (o d : QPoint.t) :
  0 < QSize.width isz -> 0 < QSize.height isz ->
  0 <= QPoint.x o -> 0 <= QPoint.y o -> 0 <= QPoint.x d -> 0 <= QPoint.y d ->
  CalculationThread.regionRect (region a isz isz o d) isz =
    Some (Z.min (QPoint.x o) (QPoint.x d), Z.max (QPoint.x o) (QPoint.x d) + 1,
          Z.min (QPoint.y o) (QPoint.y d), Z.max (QPoint.y o) (QPoint.y d) + 1)
  /\
  (forall p, o = d -> pixel_at a (QPoint.x o) (QPoint.y o) = Some p ->
     CalculationThread.computeRegion_means (region a isz isz o d) isz =
       Some (colour p)).
Proof.
  intros HW HH Hox Hoy Hdx Hdy.
  assert (Hrect :
    CalculationThread.regionRect (region a isz isz o d) isz =
    Some (Z.min (QPoint.x o) (QPoint.x d), Z.max (QPoint.x o) (QPoint.x d) + 1,
          Z.min (QPoint.y o) (QPoint.y d),
          Z.max (QPoint.y o) (QPoint.y d) + 1)).
  { unfold CalculationThread.regionRect, region, int_truediv. simpl.
    destruct (Z.eqb_spec (QSize.width isz) 0) as [E | _]; [ lia | ].
    destruct (Z.eqb_spec (QSize.height isz) 0) as [E | _]; [ lia | ].
    now rewrite !Z.quot_mul by lia. }
  split; [ exact Hrect | ].
  intros p <- Hp.
  rewrite !Z.min_id, !Z.max_id in Hrect.
  rewrite (computeRegion_means_in_rect _ _ _ _ _ _ Hrect) by lia.
  change (CalculationThread.arr (region a isz isz o o)) with a.
  rewrite (in_rect_click a _ _ p) by assumption.
  unfold rgb_mean, channel_mean, colour. simpl.
  now rewrite !Z.add_0_r, !Z.quot_1_r.
Qed.

Lemma computeRegion_full_size_witness :
  CalculationThread.regionRect
    (region img_grid (QSize.mk 4 4) (QSize.mk 4 4) (QPoint.mk 2 1)
            (QPoint.mk 2 1)) (QSize.mk 4 4) = Some (2, 3, 1, 2) /\
  CalculationThread.computeRegion_means
    (region img_grid (QSize.mk 4 4) (QSize.mk 4 4) (QPoint.mk 2 1)
            (QPoint.mk 2 1)) (QSize.mk 4 4) = Some (colour (rgb 30 50 0)).
Proof.
  destruct (computeRegion_full_size img_grid (QSize.mk 4 4) (QPoint.mk 2 1)
              (QPoint.mk 2 1)) as [Hrect Hclick]; try (simpl; lia).
  split; [ exact Hrect | apply Hclick; reflexivity ].
Defined.

(** ** The region path: range of the means *)

Lemma slice_In {A : Type} (lo hi : Z) (l : list A) (v : A) :
  In v (slice lo hi l) -> In v l.
Proof.
  unfold slice. intros Hin.
  set (n := Z.to_nat (slice_bound (Z.of_nat (length l)) lo)) in *.
  rewrite <- (firstn_skipn n l). apply in_or_app. right.
  set (m := Z.to_nat _) in Hin.
  rewrite <- (firstn_skipn m (skipn n l)). apply in_or_app. now left.
Qed.

Lemma sum_list_between (lo hi : Z) (l : list Z) :
  Forall (fun v => lo <= v <= hi) l ->
  lo * Z.of_nat (length l) <= sum l <= hi * Z.of_nat (length l).
Proof.
  unfold sum. induction 1 as [ | v l' Hv _ IH ]; simpl length; simpl fold_right;
    lia.
Qed.

Lemma int_mean_between (lo hi : Z) (m : list (list Z)) (v : Z) :
  0 <= lo ->
  Forall (Forall (fun u => lo <= u <= hi)) m ->
  int_mean m = Some v -> lo <= v <= hi.
Proof.
  intros Hlo Hall Hmean. unfold int_mean, int_quot, size in Hmean.
  assert (Hflat : Forall (fun u => lo <= u <= hi) (reshape m)).
  { unfold reshape. apply Forall_concat. exact Hall. }
  apply sum_list_between in Hflat.
  set (n := Z.of_nat (length (reshape m))) in *.
  destruct (Z.eqb_spec n 0) as [ | Hn ]; [ discriminate | ].
  injection Hmean as <-.
  assert (Hn' : 0 < n) by (subst n; lia).
  rewrite Z.quot_div_nonneg by nia. split.
  - apply Z.div_le_lower_bound; lia.
  - apply Z.div_le_upper_bound; lia.
Qed.

Lemma subchannel_Forall (P : Z -> Prop) (k : pixel -> Z)
    (y0 y1 x0 x1 : Z) (a : ndarray) :
  Forall (Forall (fun p => P (k p))) a ->
  Forall (Forall P) (subchannel y0 y1 x0 x1 k a).
Proof.
  intros Hall. unfold subchannel.
  apply Forall_forall. intros zs Hzs.
  apply in_map_iff in Hzs as [row [<- Hrow]].
  apply slice_In in Hrow.
  rewrite Forall_forall in Hall. specialize (Hall row Hrow).
  apply Forall_forall. intros z Hz.
  apply in_map_iff in Hz as [p [<- Hp]].
  apply slice_In in Hp.
  rewrite Forall_forall in Hall. now apply Hall.
Qed.

(** X13: on an array of bytes the region means are bytes again, whatever
    the selection: each of the three means lies in 0..255, so the colour
    built from them is always a valid one. *)
Theorem computeRegion_means_uint8 (self : CalculationThread.t)
    (isz : QSize.t) (r g b : Z) :
  array_ok (CalculationThread.arr self) ->
  CalculationThread.computeRegion_means self isz = Some (r, g, b) ->
  uint8 r /\ uint8 g /\ uint8 b.
Proof.
  intros Hok Hmeans. unfold CalculationThread.computeRegion_means in Hmeans.
  destruct (CalculationThread.regionRect self isz)
    as [ [[[xo xd] yo] yd] | ]; [ | discriminate ].
  assert (Hch : forall k,
            (forall p, pixel_ok p -> uint8 (k p)) ->
            forall v, int_mean (subchannel yo yd xo xd k
                                  (CalculationThread.arr self)) = Some v ->
            uint8 v).
  { intros k Hk v Hv. unfold uint8.
    eapply (int_mean_between 0 255); [ lia | | exact Hv ].
    apply (subchannel_Forall (fun u => 0 <= u <= 255)).
    eapply Forall_impl; [ | exact Hok ]. intros row Hrow.
    eapply Forall_impl; [ | exact Hrow ]. exact Hk. }
  destruct (int_mean (subchannel yo yd xo xd ch2 _)) as [ r' | ] eqn:Hr;
    [ | discriminate ].
  destruct (int_mean (subchannel yo yd xo xd ch1 _)) as [ g' | ] eqn:Hg;
    [ | discriminate ].
  destruct (int_mean (subchannel yo yd xo xd ch0 _)) as [ b' | ] eqn:Hb;
    [ | discriminate ].
  injection Hmeans as <- <- <-.
  split; [ | split ].
  - apply (Hch ch2); [ | exact Hr ]. intros p (H0 & H1 & H2 & H3). exact H2.
  - apply (Hch ch1); [ | exact Hg ]. intros p (H0 & H1 & H2 & H3). exact H1.
  - apply (Hch ch0); [ | exact Hb ]. intros p (H0 & H1 & H2 & H3). exact H0.
Qed.

Lemma computeRegion_means_uint8_witness :
  uint8 25 /\ uint8 40 /\ uint8 53.
Proof.
  apply (computeRegion_means_uint8 sel_grid (QSize.mk 4 4) 25 40 53).
  - repeat constructor; vm_compute; discriminate.
  - vm_compute. reflexivity.
Defined.

(** ** Images of a single colour *)

Lemma sum_const (c : Z) (l : list Z) :
  Forall (eq c) l -> sum l = c * Z.of_nat (length l).
Proof.
  unfold sum. induction 1 as [ | v l' <- _ IH ]; simpl length;
    simpl fold_right; lia.
Qed.

Lemma int_mean_const (c : Z) (m : list (list Z)) (v : Z) :
  Forall (Forall (eq c)) m -> int_mean m = Some v -> v = c.
Proof.
  intros Hall Hmean. unfold int_mean, int_quot, size in Hmean.
  assert (Hflat : Forall (eq c) (reshape m))
    by (unfold reshape; now apply Forall_concat).
  rewrite (sum_const c _ Hflat) in Hmean.
  destruct (Z.eqb_spec (Z.of_nat (length (reshape m))) 0) as [ | Hn ];
    [ discriminate | ].
  injection Hmean as <-. now apply Z.quot_mul.
Qed.

Lemma filter_uniform (p : pixel) (f : pixel -> bool) (l : list pixel) :
  Forall (eq p) l -> filter f l = if f p then l else [].
Proof.
  induction 1 as [ | q l' <- _ IH ]; simpl.
  - now destruct (f p).
  - rewrite IH. now destruct (f p).
Qed.

Lemma uniform_computeAll_means (p : pixel) (self : CalculationThread.t)
    (m : Z * Z * Z) :
  uniform p (CalculationThread.arr self) ->
  CalculationThread.computeAll_means self = Some m -> m = colour p.
Proof.
  intros Huni Hmeans. rewrite computeAll_means_unfold in Hmeans.
  cbv zeta in Hmeans.
  set (a := CalculationThread.arr self) in *.
  assert (Hflat : Forall (eq p) (concat a)) by now apply Forall_concat.
  unfold red_candidates, candidates in Hmeans.
  rewrite (filter_uniform p _ (concat a) Hflat) in Hmeans.
  destruct (maxc p <? threshold_of a).
  - rewrite (filter_uniform p _ (concat a) Hflat) in Hmeans.
    destruct (negb (ch2 p =? 0)); [ | discriminate ].
    destruct (Z.eqb_spec (Z.of_nat (length (concat a))) 0) as [ | Hn ];
      [ discriminate | ].
    assert (Hk : forall k, Z.quot (sum (map k (concat a)))
                                  (Z.of_nat (length (concat a))) = k p).
    { intros k. rewrite (sum_const (k p)).
      - rewrite length_map. now apply Z.quot_mul.
      - apply Forall_map. eapply Forall_impl; [ | exact Hflat ].
        now intros q <-. }
    rewrite !Hk in Hmeans. now injection Hmeans as <-.
  - discriminate.
Qed.

Lemma uniform_computeRegion_means (p : pixel) (self : CalculationThread.t)
    (isz : QSize.t) (m : Z * Z * Z) :
  uniform p (CalculationThread.arr self) ->
  CalculationThread.computeRegion_means self isz = Some m -> m = colour p.
Proof.
  intros Huni Hmeans. unfold CalculationThread.computeRegion_means in Hmeans.
  destruct (CalculationThread.regionRect self isz)
    as [ [[[xo xd] yo] yd] | ]; [ | discriminate ].
  assert (Hch : forall k v,
            int_mean (subchannel yo yd xo xd k
                        (CalculationThread.arr self)) = Some v -> v = k p).
  { intros k v Hv. eapply (int_mean_const (k p)); [ | exact Hv ].
    apply (subchannel_Forall (eq (k p))).
    eapply Forall_impl; [ | exact Huni ]. intros row Hrow.
    eapply Forall_impl; [ | exact Hrow ]. now intros q <-. }
  destruct (int_mean (subchannel yo yd xo xd ch2 _)) as [ r' | ] eqn:Hr;
    [ | discriminate ].
  destruct (int_mean (subchannel yo yd xo xd ch1 _)) as [ g' | ] eqn:Hg;
    [ | discriminate ].
  destruct (int_mean (subchannel yo yd xo xd ch0 _)) as [ b' | ] eqn:Hb;
    [ | discriminate ].
  injection Hmeans as <-.
  apply Hch in Hr, Hg, Hb. subst. reflexivity.
Qed.

(** X14: on an image of a single colour, every analysis that emits a
    value, of the whole image or of any selection at any zoom, emits the
    scale value of that colour's hue. *)
Theorem uniform_image_value (p : pixel) (th : CalculationThread.t) (v : Z) :
  uniform p (CalculationThread.arr th) ->
  CalculationThread.run th = Some v ->
  v = hueToScale (QColor.hue (ch2 p) (ch1 p) (ch0 p)).
Proof.
  intros Huni Hrun. unfold CalculationThread.run in Hrun.
  destruct (CalculationThread.imgSize th) as [ isz | ].
  - unfold CalculationThread.computeRegion in Hrun.
    destruct (CalculationThread.computeRegion_means th isz)
      as [ m | ] eqn:Hm; [ | discriminate ].
    apply (uniform_computeRegion_means p) in Hm; [ | exact Huni ].
    subst m. simpl in Hrun. now injection Hrun as <-.
  - unfold CalculationThread.computeAll in Hrun.
    destruct (CalculationThread.computeAll_means th) as [ m | ] eqn:Hm;
      [ | discriminate ].
    apply (uniform_computeAll_means p) in Hm; [ | exact Huni ].
    subst m. simpl in Hrun. now injection Hrun as <-.
Qed.

Lemma uniform_image_value_witness :
  30 = hueToScale (QColor.hue (ch2 (rgb 200 100 0)) (ch1 (rgb 200 100 0))
                              (ch0 (rgb 200 100 0))).
Proof.
  apply (uniform_image_value (rgb 200 100 0) (whole img_orange) 30).
  - repeat constructor.
  - vm_compute. reflexivity.
Defined.

(** ** The region path: when a value is emitted *)

Lemma concat_map_nil {A B : Type} (f : A -> list B) (l : list A) :
  (forall v, In v l -> f v = []) -> concat (map f l) = [].
Proof.
  induction l as [ | v l' IH ]; intros Hf; simpl; [ reflexivity | ].
  rewrite (Hf v) by now left. apply IH. intros u Hu. apply Hf. now right.
Qed.

Lemma in_rect_outside (h w x0 x1 y0 y1 : Z) (a : ndarray) :
  shape h w a -> w <= x0 \/ h <= y0 -> in_rect x0 x1 y0 y1 a = [].
Proof.
  intros [Hh Hw] [Hx | Hy]; unfold in_rect.
  - apply concat_map_nil. intros row Hrow. apply between_In in Hrow.
    rewrite Forall_forall in Hw. specialize (Hw row Hrow).
    apply between_beyond. lia.
  - rewrite (between_beyond y0 y1 0 a) by lia. reflexivity.
Qed.

(** X15: for an array of the image's shape, positive sizes and a selection
    whose smaller coordinates are not negative, the region computation
    emits a value exactly when the smaller abscissa is left of the label's
    right edge and the smaller ordinate above its bottom edge: a drag that
    ends outside the label still gives a value, a selection that begins
    beyond the right or bottom edge gives none. *)
Theorem computeRegion_emits_iff (self : CalculationThread.t) (isz : QSize.t) :
  shape (QSize.height isz) (QSize.width isz) (CalculationThread.arr self) ->
  0 < QSize.width isz -> 0 < QSize.height isz ->
  0 < QSize.width (CalculationThread.lsize self) ->
  0 < QSize.height (CalculationThread.lsize self) ->
  0 <= xmin self -> 0 <= ymin self ->
  ((exists value, CalculationThread.computeRegion self isz = Some value) <->
   xmin self < QSize.width (CalculationThread.lsize self) /\
   ymin self < QSize.height (CalculationThread.lsize self)).
Proof.
  intros Hshape HW HH Hlw Hlh Hx Hy.
  assert (Hxm : xmin self <= xmax self) by (unfold xmin, xmax; lia).
  assert (Hym : ymin self <= ymax self) by (unfold ymin, ymax; lia).
  pose proof (regionRect_floor self isz Hlw Hlh ltac:(lia) ltac:(lia) Hx Hy)
    as Hrect.
  set (lw := QSize.width (CalculationThread.lsize self)) in *.
  set (lh := QSize.height (CalculationThread.lsize self)) in *.
  set (W := QSize.width isz) in *. set (H := QSize.height isz) in *.
  assert (Hxo : 0 <= xmin self * W / lw) by (apply Z.div_pos; nia).
  assert (Hxd : xmin self * W / lw <= xmax self * W / lw)
    by (apply Z.div_le_mono; nia).
  assert (Hyo : 0 <= ymin self * H / lh) by (apply Z.div_pos; nia).
  assert (Hyd : ymin self * H / lh <= ymax self * H / lh)
    by (apply Z.div_le_mono; nia).
  unfold CalculationThread.computeRegion.
  rewrite (computeRegion_means_in_rect self isz _ _ _ _ Hrect) by lia.
  split.
  - intros [value Hvalue].
    destruct (Z_lt_ge_dec (xmin self) lw) as [Hxin | Hxout];
      [ destruct (Z_lt_ge_dec (ymin self) lh) as [Hyin | Hyout];
        [ now split | ] | ].
    + rewrite (in_rect_outside H W) in Hvalue;
        [ discriminate | exact Hshape | right ].
      apply Z.div_le_lower_bound; nia.
    + rewrite (in_rect_outside H W) in Hvalue;
        [ discriminate | exact Hshape | left ].
      apply Z.div_le_lower_bound; nia.
  - intros [Hxin Hyin].
    assert (Hne : in_rect (xmin self * W / lw) (xmax self * W / lw + 1)
                          (ymin self * H / lh) (ymax self * H / lh + 1)
                          (CalculationThread.arr self) <> []).
    { apply (in_rect_nonempty H W); [ exact Hshape | | lia | | lia ].
      - split; [ exact Hxo | apply Z.div_lt_upper_bound; nia ].
      - split; [ exact Hyo | apply Z.div_lt_upper_bound; nia ]. }
    destruct (rgb_mean_nonempty _ Hne) as [[[r g] b] Hmean].
    rewrite Hmean. eexists. reflexivity.
Qed.

Lemma computeRegion_emits_iff_witness :
  (exists value,
     CalculationThread.computeRegion
       (region img_grid (QSize.mk 4 4) (QSize.mk 8 8) (QPoint.mk 6 6)
               (QPoint.mk 30 30)) (QSize.mk 4 4) = Some value) <->
  6 < 8 /\ 6 < 8.
Proof.
  apply (computeRegion_emits_iff
           (region img_grid (QSize.mk 4 4) (QSize.mk 8 8) (QPoint.mk 6 6)
                   (QPoint.mk 30 30)) (QSize.mk 4 4)).
  - split; [ reflexivity | repeat constructor ].
  - reflexivity.
  - reflexivity.
  - reflexivity.
  - reflexivity.
  - vm_compute. discriminate.
  - vm_compute. discriminate.
Defined.

(** ** Sessions: the log over a sequence of events *)

Lemma append_nil_r (s : string) : (s ++ "")%string = s.
Proof. induction s as [ | c s' IH ]; simpl; [ reflexivity | now rewrite IH ]. Qed.

Lemma append_assoc (s1 s2 s3 : string) :
  ((s1 ++ s2) ++ s3)%string = (s1 ++ (s2 ++ s3))%string.
Proof.
  induction s1 as [ | c s1' IH ]; simpl; [ reflexivity | now rewrite IH ].
Qed.

(** What one event does to the log and to the current file name. *)
Lemma step_log (e : Session.event) (s : Session.t) :
  exists line,
    MainWindow.ozone_log (Session.window (Session.step e s)) =
      (MainWindow.ozone_log (Session.window s) ++ line)%string /\
    (newlines (MainWindow.currentFile (Session.window s)) = 0%nat ->
     Session.plain_names [e] ->
     newlines line = (if Session.emits e s then 1 else 0)%nat /\
     newlines (MainWindow.currentFile (Session.window (Session.step e s)))
       = 0%nat).
Proof.
  destruct s as [w img]. destruct e as [ f loaded | l o d ]; simpl.
  - destruct loaded as [ a | ].
    + unfold MainWindow.openf, MainWindow.analyse. cbv zeta.
      destruct (CalculationThread.run (whole a)) as [ v | ]; simpl.
      * exists (MainWindow.logLine f v). split; [ reflexivity | ].
        intros _ [Hf _]. rewrite newlines_logLine, Hf. split; reflexivity || exact Hf.
      * exists ""%string. rewrite append_nil_r. split; [ reflexivity | ].
        intros _ [Hf _]. split; [ reflexivity | exact Hf ].
    + exists ""%string. rewrite append_nil_r. split; [ reflexivity | ].
      intros _ [Hf _]. split; [ reflexivity | exact Hf ].
  - destruct img as [ a | ]; simpl.
    + unfold MainWindow.mouseReleaseEvent, MainWindow.analyse.
      destruct (CalculationThread.run
                  (region a (Session.pixmap_size a) l o d)) as [ v | ]; simpl.
      * exists (MainWindow.logLine (MainWindow.currentFile w) v).
        split; [ reflexivity | ].
        intros Hw _. rewrite newlines_logLine, Hw. split; reflexivity || exact Hw.
      * exists ""%string. rewrite append_nil_r. split; [ reflexivity | ].
        intros Hw _. split; [ reflexivity | exact Hw ].
    + exists ""%string. rewrite append_nil_r. split; [ reflexivity | ].
      intros Hw _. split; [ reflexivity | exact Hw ].
Qed.

Lemma plain_names_cons (e : Session.event) (es : list Session.event) :
  Session.plain_names (e :: es) ->
  Session.plain_names [e] /\ Session.plain_names es.
Proof.
  destruct e; simpl; tauto.
Qed.

(** X18: over any sequence of file openings and selections the log only
    grows at its end: the content present before is kept as a prefix. When
    no file name holds a line terminator, the text added has exactly one
    line per event that emitted a value, and none for an opening that
    failed or a computation that raised. *)
Theorem session_log_append_only (es : list Session.event) (s : Session.t) :
  exists added,
    MainWindow.ozone_log (Session.window (Session.run es s)) =
      (MainWindow.ozone_log (Session.window s) ++ added)%string /\
    (newlines (MainWindow.currentFile (Session.window s)) = 0%nat ->
     Session.plain_names es ->
     newlines added = Session.emitted es s).
Proof.
  revert s. induction es as [ | e es' IH ]; intros s.
  - exists ""%string. simpl. rewrite append_nil_r. split; reflexivity || auto.
  - destruct (step_log e s) as [line [Hline Hcount]].
    destruct (IH (Session.step e s)) as [added [Hadded Hrest]].
    exists (line ++ added)%string. split.
    + change (Session.run (e :: es') s)
        with (Session.run es' (Session.step e s)).
      now rewrite Hadded, Hline, append_assoc.
    + intros Hs Hnames. apply plain_names_cons in Hnames as [He Hes].
      destruct (Hcount Hs He) as [Hone Hnext].
      rewrite newlines_app, Hone, (Hrest Hnext Hes). reflexivity.
Qed.

Lemma session_log_append_only_witness :
  exists added,
    MainWindow.ozone_log
      (Session.window
         (Session.run [Session.Open "gray.png" (Some img_gray);
                       Session.Open "blue.png" (Some img_blue);
                       Session.Release (QSize.mk 2 2) (QPoint.mk 0 0)
                                       (QPoint.mk 0 0)] session_grid)) =
      (MainWindow.ozone_log (Session.window session_grid) ++ added)%string /\
    newlines added = 2%nat.
Proof.
  destruct (session_log_append_only
              [Session.Open "gray.png" (Some img_gray);
               Session.Open "blue.png" (Some img_blue);
               Session.Release (QSize.mk 2 2) (QPoint.mk 0 0) (QPoint.mk 0 0)]
              session_grid) as [added [Hlog Hlines]].
  exists added. split; [ exact Hlog | ].
  rewrite Hlines; [ vm_compute; reflexivity | reflexivity | ].
  simpl. repeat split.
Defined.

(** ** The loader chosen by the file name *)

Lemma length_append (s1 s2 : string) :
  String.length (s1 ++ s2) = (String.length s1 + String.length s2)%nat.
Proof.
  induction s1 as [ | c s1' IH ]; simpl; [ reflexivity | now rewrite IH ].
Qed.

Lemma length_lower (s : string) : String.length (lower s) = String.length s.
Proof.
  induction s as [ | c s' IH ]; simpl; [ reflexivity | now rewrite IH ].
Qed.

Lemma lower_append (s1 s2 : string) :
  lower (s1 ++ s2) = (lower s1 ++ lower s2)%string.
Proof.
  induction s1 as [ | c s1' IH ]; simpl; [ reflexivity | now rewrite IH ].
Qed.

Lemma substring_all (s : string) : substring 0 (String.length s) s = s.
Proof.
  induction s as [ | c s' IH ]; simpl; [ reflexivity | now rewrite IH ].
Qed.

Lemma substring_suffix (s1 s2 : string) :
  substring (String.length s1) (String.length s2) (s1 ++ s2) = s2.
Proof.
  induction s1 as [ | c s1' IH ]; simpl; [ apply substring_all | exact IH ].
Qed.

Lemma endswith_append (s1 s2 suffix : string) :
  String.length s2 = String.length suffix ->
  endswith (s1 ++ s2) suffix = String.eqb s2 suffix.
Proof.
  intros Hlen. unfold endswith. rewrite length_append, <- Hlen.
  replace (String.length s1 + String.length s2 - String.length s2)%nat
    with (String.length s1) by lia.
  rewrite substring_suffix.
  replace (String.length s2 <=? String.length s1 + String.length s2)%nat
    with true by (symmetry; apply Nat.leb_le; lia).
  reflexivity.
Qed.

(** X20: [openf] picks the loader by the last four characters of the file
    name, letter case apart: a name ending in four characters that read
    ".cr2" once lowered goes to the RAW loader, any other name of four
    characters or more, and every shorter name, to the image reader. *)
Theorem openf_loader_by_extension :
  (forall base ext,
     String.length ext = 4%nat ->
     (openf_loader (base ++ ext) = loadRaw <-> lower ext = ".cr2"%string)) /\
  (forall fileName,
     (String.length fileName < 4)%nat -> openf_loader fileName = loadImage).
Proof.
  split.
  - intros base ext Hlen. unfold openf_loader.
    rewrite lower_append, endswith_append
      by (rewrite length_lower, Hlen; reflexivity).
    destruct (String.eqb_spec (lower ext) ".cr2") as [E | NE].
    + split; [ intros _; exact E | reflexivity ].
    + split; [ discriminate | intros E; contradiction ].
  - intros fileName Hlen. unfold openf_loader, endswith.
    rewrite length_lower.
    replace (String.length ".cr2" <=? String.length fileName)%nat with false
      by (symmetry; apply Nat.leb_gt; simpl; lia).
    reflexivity.
Qed.

Lemma openf_loader_by_extension_witness :
  (openf_loader "IMG_0042.CR2" = loadRaw <-> lower ".CR2" = ".cr2"%string) /\
  openf_loader "cr2" = loadImage.
Proof.
  destruct openf_loader_by_extension as [Hext Hshort].
  split.
  - apply (Hext "IMG_0042"%string ".CR2"%string). reflexivity.
  - apply (Hshort "cr2"%string). simpl. lia.
Defined.

(** ** The scale widget *)

(** X21: the gradient painted behind the pointer agrees with the
    conversion: each of its four stops stands where the pointer stands for
    some scale value of 0..180, and carries the hue [scaleToHue] gives that
    value (positions taken as exact fractions). *)
Theorem gradient_matches_scaleToHue :
  Forall (fun stop =>
            exists s, 0 <= s <= 180 /\
                      scaleToHue s = snd stop /\
                      forall width,
                        (ScaleWidget.colordisp width s ==
                         fst stop * inject_Z width)%Q)
         ScaleWidget.gradient.
Proof.
  unfold ScaleWidget.gradient.
  repeat constructor; cbn [fst snd].
  - exists 0. repeat split; try lia.
    intros w. unfold ScaleWidget.colordisp, Qeq. cbn -[Z.mul]. lia.
  - exists 60. repeat split; try lia.
    intros w. unfold ScaleWidget.colordisp, Qeq. cbn -[Z.mul]. lia.
  - exists 120. repeat split; try lia.
    intros w. unfold ScaleWidget.colordisp, Qeq. cbn -[Z.mul]. lia.
  - exists 180. repeat split; try lia.
    intros w. unfold ScaleWidget.colordisp, Qeq. cbn -[Z.mul]. lia.
Qed.

(** X22: on a widget of positive width the tip of the pointer lies within
    the widget exactly when the value shown is on the scale 0..180 (the
    quotient taken as an exact fraction); a value above 180, as a hue of
    the gap gives, puts the pointer beyond the right edge. *)
Theorem pointer_inside_iff (width color : Z) :
  0 < width ->
  ((0 <= ScaleWidget.colordisp width color)%Q /\
   (ScaleWidget.colordisp width color <= inject_Z width)%Q <->
   0 <= color <= 180).
Proof.
  intros Hw. unfold ScaleWidget.colordisp, Qle. cbn -[Z.mul]. nia.
Qed.

Lemma pointer_inside_iff_witness :
  (0 <= ScaleWidget.colordisp 300 240)%Q /\
  (ScaleWidget.colordisp 300 240 <= inject_Z 300)%Q <->
  0 <= 240 <= 180.
Proof.
  apply (pointer_inside_iff 300 240). lia.
Defined.
